(** * Archives URL Fetcher: a shallow embedding of [archive.py]

    The extension fetches the archived URLs of a domain, drops static
    assets, probes the remaining URLs with a pool of worker threads and
    renders a report.  This development embeds the string helpers, the
    URL filter, the probe, the worker loop together with the coordinating
    thread (as an interleaving step function over a shared state) and the
    report rendering, and proves properties of them.

    Modelling conventions.
    - Python strings are [string] (sequences of 8-bit characters);
      [lower] and [strip] act on the ASCII range: [lower] maps the
      letters A-Z, and the characters [strip] removes are the space,
      the characters 9 to 13 (tab, line feed, vertical tab, form feed,
      carriage return) and the separators 28 to 31, the white space of
      the text the fields hold.  Characters from 128 up are neither
      letters nor white space.
    - Integers are [Z]; counters that only count up are [nat].
    - The two collaborators outside the program, the archive index and
      the probed web servers, are oracles: section variables [archive]
      and [http].
    - An exception raised while a URL is probed is the answer [Failure]
      of the oracle, with the text of the exception.
    - Threads are interleaved by a schedule, a list of events; one event
      executes one atomic action of one thread: one test of the loop
      condition, one queue operation, the [try] block, the counting
      under the lock.  A thread that cannot move (blocked in [q.get()]
      or in [q.join()]) has no step.
    - Clicks on the Stop button are events of the schedule, from the
      moment the workers are started. *)

From Stdlib Require Import String Ascii List ZArith Lia Bool Arith.
From Stdlib Require Import Permutation Sorted.
Import ListNotations.

Local Open Scope string_scope.
Local Open Scope list_scope.

(** String concatenation, the source's [+] on strings; [++] is kept for
    lists. *)
Infix "+++" := String.append (right associativity, at level 60).

(** ** Strings *)

Module Str.

(** The newline character, written [\n] in the source. *)
Definition nl : string := String "010"%char "".

(** [s.startswith(p)] *)
Fixpoint startswith (s p : string) {struct p} : bool :=
  match p with
  | "" => true
  | String c p' =>
      match s with
      | "" => false
      | String d s' => Ascii.eqb d c && startswith s' p'
      end
  end.

(** [s.endswith(suf)]: the last [len(suf)] characters of [s] are [suf]. *)
Definition endswith (s suf : string) : bool :=
  (String.length suf <=? String.length s)%nat &&
  String.eqb (substring (String.length s - String.length suf) (String.length suf) s) suf.

(** [c.lower()] on one character: [A-Z] is moved to [a-z]. *)
Definition lower_char (c : ascii) : ascii :=
  let n := nat_of_ascii c in
  if ((65 <=? n) && (n <=? 90))%nat then ascii_of_nat (n + 32) else c.

(** [s.lower()] *)
Fixpoint lower (s : string) : string :=
  match s with
  | "" => ""
  | String c s' => String (lower_char c) (lower s')
  end.

(** White space as [strip] of a text string sees it: the blank, the
    controls 9..13 (tab, line feed, vertical tab, form feed, carriage
    return) and the separators 28..31 (FS, GS, RS, US). *)
Definition is_space (c : ascii) : bool :=
  let n := nat_of_ascii c in
  ((n =? 32) || ((9 <=? n) && (n <=? 13)) || ((28 <=? n) && (n <=? 31)))%nat.

Fixpoint lstrip (s : string) : string :=
  match s with
  | "" => ""
  | String c s' => if is_space c then lstrip s' else s
  end.

(** Right strip, computed from the right end: the tail is stripped first
    and a space in front of an emptied tail goes too. *)
Fixpoint rstrip (s : string) : string :=
  match s with
  | "" => ""
  | String c s' =>
      match rstrip s' with
      | "" => if is_space c then "" else String c ""
      | t => String c t
      end
  end.

(** [s.strip()] *)
Definition strip (s : string) : string := rstrip (lstrip s).

(** [s.ljust(w)], which is what the format field [{:<w}] does to a
    string: pad on the right with spaces up to width [w], never cut. *)
Fixpoint spaces (n : nat) : string :=
  match n with
  | O => ""
  | S n' => String " "%char (spaces n')
  end.

Definition ljust (w : nat) (s : string) : string :=
  s +++ spaces (w - String.length s).

(** [a in s] for strings, as a proposition. *)
Definition contains (s a : string) : Prop :=
  exists pre post, s = pre +++ a +++ post.

(** Number of line feeds in a string. *)
Fixpoint count_nl (s : string) : nat :=
  match s with
  | "" => 0
  | String c s' => (if Ascii.eqb c "010"%char then 1 else 0) + count_nl s'
  end.

(** [string.join] of the empty separator. *)
Fixpoint concat_all (l : list string) : string :=
  match l with
  | [] => ""
  | s :: l' => s +++ concat_all l'
  end.

(** *** Decimal rendering, [str(n)] for integers *)

Definition digit_char (d : nat) : ascii := ascii_of_nat (48 + d).

Fixpoint digits_fuel (fuel n : nat) (acc : string) : string :=
  match fuel with
  | O => acc
  | S fuel' =>
      let acc' := String (digit_char (n mod 10)) acc in
      if (n <? 10)%nat then acc' else digits_fuel fuel' (n / 10) acc'
  end.

(** [str(n)] for a natural number; [S n] steps are always enough. *)
Definition of_nat (n : nat) : string := digits_fuel (S n) n "".

(** [str(z)] *)
Definition of_Z (z : Z) : string :=
  match z with
  | Zneg p => String "-"%char (of_nat (Pos.to_nat p))
  | _ => of_nat (Z.to_nat z)
  end.

(** *** [int(s)] in base ten *)

Definition is_digit (c : ascii) : bool :=
  let n := nat_of_ascii c in ((48 <=? n) && (n <=? 57))%nat.

(** Value of a run of digits, most significant first; [None] at the
    first character that is not a digit. *)
Fixpoint digits_value (s : string) (acc : Z) : option Z :=
  match s with
  | "" => Some acc
  | String c s' =>
      if is_digit c
      then digits_value s' (10 * acc + Z.of_nat (nat_of_ascii c - 48))%Z
      else None
  end.

Definition unsigned_int (s : string) : option Z :=
  match s with
  | "" => None
  | _ => digits_value s 0%Z
  end.

(** [int(s)]: surrounding whitespace is ignored, one sign is allowed,
    at least one digit is required; [None] stands for [ValueError]. *)
Definition py_int (s : string) : option Z :=
  match strip s with
  | String "-"%char r => option_map Z.opp (unsigned_int r)
  | String "+"%char r => unsigned_int r
  | r => unsigned_int r
  end.

(** *** [urllib.quote(s)] with the default [safe='/'] *)

Definition is_alpha (c : ascii) : bool :=
  let n := nat_of_ascii c in
  (((65 <=? n) && (n <=? 90)) || ((97 <=? n) && (n <=? 122)))%nat.

Definition always_safe (c : ascii) : bool :=
  is_alpha c || is_digit c ||
  Ascii.eqb c "_"%char || Ascii.eqb c "."%char || Ascii.eqb c "-"%char ||
  Ascii.eqb c "/"%char.

Definition hex_digit (d : nat) : ascii :=
  if (d <? 10)%nat then ascii_of_nat (48 + d) else ascii_of_nat (55 + d).

Definition percent (c : ascii) : string :=
  let n := nat_of_ascii c in
  String "%"%char (String (hex_digit (n / 16)) (String (hex_digit (n mod 16)) "")).

Fixpoint quote (s : string) : string :=
  match s with
  | "" => ""
  | String c s' =>
      (if always_safe c then String c "" else percent c) +++ quote s'
  end.

End Str.

(** ** The URL filter (lines 272-275) *)

Definition excluded_extensions : list string :=
  [".eot"; ".svg"; ".woff"; ".woff2"; ".css"; ".ttf"; ".png"; ".jpg"; ".jpeg"; ".gif"].

(** [any(url.lower().endswith(ext) for ext in excluded_extensions)] *)
Definition is_excluded (url : string) : bool :=
  existsb (fun ext => Str.endswith (Str.lower url) ext) excluded_extensions.

(** [[url for url in lines if not any(...)]] *)
Definition filter_urls (lines : list string) : list string :=
  filter (fun url => negb (is_excluded url)) lines.

(** An order-preserving subsequence: some elements dropped, none moved. *)
Inductive subseq {A : Type} : list A -> list A -> Prop :=
| subseq_nil : subseq [] []
| subseq_keep x l1 l2 : subseq l1 l2 -> subseq (x :: l1) (x :: l2)
| subseq_drop x l1 l2 : subseq l1 l2 -> subseq l1 (x :: l2).

(** Lower case by the alphabet, following the words of the description
    and not the code: a letter of [A..Z] is replaced by the letter at the
    same place of [a..z], every other character stays. *)
Fixpoint spec_swap_letter (c : ascii) (from to : string) : ascii :=
  match from, to with
  | String f from', String t to' =>
      if Ascii.eqb c f then t else spec_swap_letter c from' to'
  | _, _ => c
  end.

Definition spec_lower_char (c : ascii) : ascii :=
  spec_swap_letter c "ABCDEFGHIJKLMNOPQRSTUVWXYZ" "abcdefghijklmnopqrstuvwxyz".

Definition spec_upper_char (c : ascii) : ascii :=
  spec_swap_letter c "abcdefghijklmnopqrstuvwxyz" "ABCDEFGHIJKLMNOPQRSTUVWXYZ".

Fixpoint spec_lowercase (s : string) : string :=
  match s with
  | "" => ""
  | String c s' => String (spec_lower_char c) (spec_lowercase s')
  end.

Fixpoint spec_uppercase (s : string) : string :=
  match s with
  | "" => ""
  | String c s' => String (spec_upper_char c) (spec_uppercase s')
  end.

(** "The lowercased form of [url] ends with [suffix]", in words. *)
Definition ends_with_lower (url suffix : string) : Prop :=
  exists front, spec_lowercase url = front +++ suffix.

(** ** The probe (lines 190-208) *)

(** One entry of [results]: the tuple [(status, size, url_string)]. *)
Definition result : Type := Z * Z * string.

(** [item[1]], the sort key. *)
Definition item1 (r : result) : Z := snd (fst r).

(** What the network does with one request: a response with its status
    code ([getResponseCode]) and declared length ([getContentLength],
    -1 when not known), or an exception with its message. *)
Inductive response : Type :=
| Response (status size : Z)
| Failure (cause : string).

(** Lines 191-192. *)
Definition normalize (url_string : string) : string :=
  if Str.startswith url_string "http://" || Str.startswith url_string "https://"
  then url_string
  else "http://" +++ url_string.

(** [status not in [400, 404]] *)
Definition kept_status (status : Z) : bool :=
  negb (existsb (Z.eqb status) [400; 404]%Z).

(** The [try]/[except] of the worker for one dequeued [url_string]: what
    it appends to [results]. *)
Definition probe_entries (http : string -> response) (url_string : string) : list result :=
  let url_string := normalize url_string in
  match http url_string with
  | Response status size =>
      if kept_status status then [(status, size, url_string)] else []
  | Failure cause =>
      [((-1)%Z, (-1)%Z, "[!] Error on " +++ url_string +++ ": " +++ cause)]
  end.

(** ** The report (lines 297-312) *)

(** [sorted(results, key=lambda item: item[1], reverse=True)]: a stable
    sort, largest key first; entries with equal keys keep their order.
    Insertion from the right end gives exactly that order. *)
Fixpoint insert_desc (x : result) (l : list result) : list result :=
  match l with
  | [] => [x]
  | y :: l' =>
      if (item1 y <=? item1 x)%Z then x :: y :: l' else y :: insert_desc x l'
  end.

Fixpoint sorted_desc (l : list result) : list result :=
  match l with
  | [] => []
  | x :: l' => insert_desc x (sorted_desc l')
  end.

(** ["{:<8} {:<15} {}\n".format(a, b, c)] *)
Definition format_row (a b c : string) : string :=
  Str.ljust 8 a +++ " " +++ Str.ljust 15 b +++ " " +++ c +++ Str.nl.

Definition headers : string := format_row "Status" "Response Size" "URL".
Definition separator : string := format_row "------" "-------------" "---".

(** The body of the [for result_item in sorted_results] loop. *)
Definition render_item (result_item : result) : string :=
  let '(status, size, url_string) := result_item in
  if (status =? -1)%Z then url_string +++ Str.nl
  else
    let size_str := if negb (size =? -1)%Z then Str.of_Z size else "N/A" in
    format_row (Str.of_Z status) size_str url_string.

(** Everything lines 297-312 append to the output area. *)
Definition build_report (results : list result) : string :=
  headers +++ separator +++ Str.concat_all (map render_item (sorted_desc results)).

(** ** The worker pool and the coordinating thread *)

(** Where a worker thread stands in [_url_checker] (lines 188-215). *)
Inductive wstate : Type :=
| WHead                 (* about to evaluate [not q.empty()] *)
| WFlag                 (* about to evaluate [not self._stop_event.is_set()] *)
| WGet                  (* about to call [q.get()] *)
| WProbe (url : string) (* holds [url]; about to run the [try] block *)
| WFinally              (* in [finally], about to count under the lock *)
| WTaskDone             (* about to call [q.task_done()] *)
| WExit.                (* the thread has ended *)

(** Where the thread running [_fetch_and_check_urls] stands after it has
    started the workers (lines 295-332). *)
Inductive cstate : Type :=
| CJoin     (* blocked in [q.join()] *)
| CRender   (* about to sort and render, lines 297-312 *)
| CStatus   (* about to read the stop flag, line 314 *)
| CFinally  (* label set; about to run the [finally], lines 330-332 *)
| CDone.    (* returned *)

Record state : Type := mkState {
  queue : list string;        (* [q]: the items not yet taken *)
  unfinished : nat;           (* [q.unfinished_tasks] *)
  results : list result;      (* [results] *)
  checked_count : nat;        (* [self._checked_count] *)
  total_urls : nat;           (* [total_to_check] *)
  stop_event : bool;          (* [self._stop_event] *)
  stopButton : bool;          (* the Stop button is enabled *)
  workers : list wstate;      (* one entry per started thread *)
  coordinator : cstate;
  outputArea : string;        (* text of the output area *)
  statusLabel : string;       (* text of the status label *)
  probed : list string        (* URLs handed to [java.net.URL], in order *)
}.

(** One atomic action of a thread, picked by the scheduler, or a click
    on the Stop button. *)
Inductive event : Type :=
| EvWorker (i : nat)
| EvCoordinator
| EvStop.

Definition set_workers (ws : list wstate) (s : state) : state :=
  mkState (queue s) (unfinished s) (results s) (checked_count s) (total_urls s)
    (stop_event s) (stopButton s) ws (coordinator s) (outputArea s)
    (statusLabel s) (probed s).

(** [l[i] = x]; used only with [i] in range. *)
Fixpoint set_nth {A : Type} (i : nat) (x : A) (l : list A) : list A :=
  match l, i with
  | [], _ => []
  | _ :: l', O => x :: l'
  | y :: l', S i' => y :: set_nth i' x l'
  end.

Section Run.

(** The probed servers and the archive index. *)
Variable http : string -> response.

(** One action of a worker standing at [w]: its next position and the
    shared state it leaves.  [None]: the thread cannot move (it is
    blocked in [q.get()] on an empty queue, or it has ended). *)
Definition worker_step (w : wstate) (s : state) : option (wstate * state) :=
  match w with
  | WHead =>
      match queue s with
      | [] => Some (WExit, s)
      | _ :: _ => Some (WFlag, s)
      end
  | WFlag => if stop_event s then Some (WExit, s) else Some (WGet, s)
  | WGet =>
      match queue s with
      | [] => None
      | url_string :: q' =>
          Some (WProbe url_string,
                mkState q' (unfinished s) (results s) (checked_count s) (total_urls s)
                  (stop_event s) (stopButton s) (workers s) (coordinator s)
                  (outputArea s) (statusLabel s) (probed s))
      end
  | WProbe url_string =>
      Some (WFinally,
            mkState (queue s) (unfinished s)
              (results s ++ probe_entries http url_string)
              (checked_count s) (total_urls s)
              (stop_event s) (stopButton s) (workers s) (coordinator s)
              (outputArea s) (statusLabel s)
              (probed s ++ [normalize url_string]))
  | WFinally =>
      let c := S (checked_count s) in
      Some (WTaskDone,
            mkState (queue s) (unfinished s) (results s) c (total_urls s)
              (stop_event s) (stopButton s) (workers s) (coordinator s)
              (outputArea s)
              ("Checking: " +++ Str.of_nat c +++ " / " +++ Str.of_nat (total_urls s))
              (probed s))
  | WTaskDone =>
      match unfinished s with
      | O => Some (WExit, s)   (* [ValueError]: the thread dies *)
      | S n =>
          Some (WHead,
                mkState (queue s) n (results s) (checked_count s) (total_urls s)
                  (stop_event s) (stopButton s) (workers s) (coordinator s)
                  (outputArea s) (statusLabel s) (probed s))
      end
  | WExit => None
  end.

(** One action of the coordinating thread.  [q.join()] returns only when
    [unfinished_tasks] is zero; the Stop button stays enabled until the
    [finally] of lines 330-332, which is the last action. *)
Definition coordinator_step (s : state) : option state :=
  match coordinator s with
  | CJoin =>
      match unfinished s with
      | O =>
          Some (mkState (queue s) (unfinished s) (results s) (checked_count s)
                  (total_urls s) (stop_event s) (stopButton s) (workers s) CRender
                  (outputArea s) (statusLabel s) (probed s))
      | S _ => None
      end
  | CRender =>
      Some (mkState (queue s) (unfinished s) (results s) (checked_count s)
              (total_urls s) (stop_event s) (stopButton s) (workers s) CStatus
              (outputArea s +++ build_report (results s)) (statusLabel s) (probed s))
  | CStatus =>
      if stop_event s then
        Some (mkState (queue s) (unfinished s) (results s) (checked_count s)
                (total_urls s) (stop_event s) (stopButton s) (workers s) CFinally
                (outputArea s +++ Str.nl +++ "[*] Process stopped by user.")
                "Status: Stopped" (probed s))
      else
        Some (mkState (queue s) (unfinished s) (results s) (checked_count s)
                (total_urls s) (stop_event s) (stopButton s) (workers s) CFinally
                (outputArea s +++ Str.nl +++ "[*] All checks complete.")
                "Status: Complete" (probed s))
  | CFinally =>
      Some (mkState (queue s) (unfinished s) (results s) (checked_count s)
              (total_urls s) (stop_event s) false (workers s) CDone
              (outputArea s) (statusLabel s) (probed s))
  | CDone => None
  end.

(** [_on_stop_button_click]; possible while the button is enabled. *)
Definition stop_click (s : state) : option state :=
  if stopButton s then
    Some (mkState (queue s) (unfinished s) (results s) (checked_count s)
            (total_urls s) true false (workers s) (coordinator s)
            (outputArea s +++ Str.nl +++ "[*] Stop request received. Finishing current checks..." +++ Str.nl)
            (statusLabel s) (probed s))
  else None.

Definition step (e : event) (s : state) : option state :=
  match e with
  | EvWorker i =>
      match nth_error (workers s) i with
      | None => None
      | Some w =>
          match worker_step w s with
          | None => None
          | Some (w', s') => Some (set_workers (set_nth i w' (workers s')) s')
          end
      end
  | EvCoordinator => coordinator_step s
  | EvStop => stop_click s
  end.

(** Run a schedule; [None] when it asks a thread to move that cannot. *)
Fixpoint exec (sch : list event) (s : state) : option state :=
  match sch with
  | [] => Some s
  | e :: sch' =>
      match step e s with
      | None => None
      | Some s' => exec sch' s'
      end
  end.

(** The state right after lines 283-293: the queue filled, the threads
    started, nothing probed yet. *)
Definition pool_start (out : string) (filtered_urls : list string) (thread_count : nat) : state :=
  mkState filtered_urls (length filtered_urls) [] 0 (length filtered_urls)
    false true (repeat WHead thread_count) CJoin out
    ("Checking: 0 / " +++ Str.of_nat (length filtered_urls)) [].

End Run.

(** ** The run as a whole ([_fetch_and_check_urls]) *)

(** What the user has entered when the Fetch button is clicked. *)
Record ui_input : Type := mkInput {
  domainField : string;
  limitField : string;
  threadsDropdown : nat;   (* the selected item, one of 1..10 *)
  shownBefore : string     (* what the output area shows at that time *)
}.

(** What the archive index does with the one query: the lines it sends,
    or an exception with its message. *)
Inductive archive_reply : Type :=
| Lines (lines : list string)
| FetchFailure (cause : string).

(** How a run has ended. *)
Record outcome : Type := mkOutcome {
  end_label : string;                (* the status label *)
  end_output : string;               (* the output area *)
  end_archive_calls : list string;   (* queries sent to the archive index *)
  end_workers : nat;                 (* worker threads started *)
  end_probed : list string;          (* URLs probed *)
  end_results : list result;
  end_checked : nat
}.

(** Lines 221-293: either the run returns before any worker exists, or
    the pool is started. *)
Inductive prepared : Type :=
| Returned (o : outcome)
| Started (query : string) (s : state).

(** Lines 245-248. *)
Definition target_url (domain : string) (limit : Z) : string :=
  "http://web.archive.org/cdx/search/cdx?url=" +++ Str.quote domain +++
  "&matchType=domain&limit=" +++ Str.of_Z limit +++ "&fl=original&collapse=urlkey".

(** Lines 324-326. *)
Definition fetch_error_message (cause : string) : string :=
  "[!] Error retrieving archived URLs." +++ Str.nl +++
  "    Please check the domain and your network connection." +++ Str.nl +++ Str.nl +++
  "    Error details: " +++ cause +++ Str.nl.

(** The two operations on the output area. *)
Definition setText (new_text shown : string) : string := new_text.
Definition append (more shown : string) : string := shown +++ more.

Section Fetch.

Variable archive : string -> archive_reply.

Definition fetch_prepare (ui : ui_input) : prepared :=
  let out := shownBefore ui in
  let domain := Str.strip (domainField ui) in
  if String.eqb domain "" then
    Returned (mkOutcome "Status: Error"
                (setText "Error: Please enter a domain name." out) [] 0 [] [] 0)
  else
    match Str.py_int (Str.strip (limitField ui)) with
    | None =>
        Returned (mkOutcome "Status: Error"
                    (setText "Error: Invalid limit. Please enter a number." out) [] 0 [] [] 0)
    | Some limit =>
        let thread_count := threadsDropdown ui in
        let out := setText ("[*] Preparing to fetch URLs for: " +++ domain +++ Str.nl) out in
        let target := target_url domain limit in
        let out := append ("[*] Contacting: " +++ target +++ Str.nl) out in
        match archive target with
        | FetchFailure cause =>
            Returned (mkOutcome "Status: Fetch Error"
                        (setText (fetch_error_message cause) out) [target] 0 [] [] 0)
        | Lines [] =>
            Returned (mkOutcome "Status: Error"
                        (append (Str.nl +++ "[!] Error retrieving archived URLs. The response was empty.") out)
                        [target] 0 [] [] 0)
        | Lines lines =>
            let out := append ("[*] Found " +++ Str.of_nat (length lines) +++ " total URLs." +++ Str.nl) out in
            let filtered_urls := filter_urls lines in
            let total_to_check := length filtered_urls in
            let out :=
              append ("[*] " +++ Str.of_nat total_to_check +++
                      " URLs remain after filtering. Starting HTTP checks with " +++
                      Str.of_nat thread_count +++ " threads..." +++ Str.nl +++ Str.nl) out in
            Started target (pool_start out filtered_urls thread_count)
        end
    end.

Variable http : string -> response.

(** The whole run under a schedule of the threads it starts.  [None]:
    under that schedule the run has not ended (or the schedule asks for
    a move that is not possible). *)
Definition fetch_and_check_urls (ui : ui_input) (sch : list event) : option outcome :=
  match fetch_prepare ui with
  | Returned o => Some o
  | Started query s =>
      match exec http sch s with
      | None => None
      | Some s' =>
          match coordinator s' with
          | CDone =>
              Some (mkOutcome (statusLabel s') (outputArea s') [query]
                      (length (workers s')) (probed s') (results s') (checked_count s'))
          | _ => None
          end
      end
  end.

End Fetch.

(** ** A model of "has a scheme" for the scheme claim

    Follows the words of the description, not the code: a URL has a
    scheme when it starts with a letter, goes on with letters, digits,
    [+], [-] or [.], and then has [://]. *)

Definition scheme_char (c : ascii) : bool :=
  Str.is_alpha c || Str.is_digit c ||
  Ascii.eqb c "+"%char || Ascii.eqb c "-"%char || Ascii.eqb c "."%char.

Fixpoint scheme_rest (s : string) : bool :=
  match s with
  | "" => false
  | String c s' =>
      if Ascii.eqb c ":"%char then Str.startswith s' "//"
      else scheme_char c && scheme_rest s'
  end.

Definition spec_has_scheme (url : string) : bool :=
  match url with
  | "" => false
  | String c s' => Str.is_alpha c && scheme_rest s'
  end.

(** ** Notions used in the statements

    Order and size classes of report entries. *)

(** Larger or equal size first. *)
Definition size_ge (a b : result) : Prop := (item1 b <= item1 a)%Z.

Definition size_known (r : result) : bool := negb (item1 r =? -1)%Z.
Definition size_unknown (r : result) : bool := (item1 r =? -1)%Z.

(** A worker that has taken an item and not yet called [task_done]. *)
Definition held (w : wstate) : nat :=
  match w with WProbe _ | WFinally | WTaskDone => 1 | _ => 0 end.

(** A worker that has taken an item and not yet counted it. *)
Definition uncounted (w : wstate) : nat :=
  match w with WProbe _ | WFinally => 1 | _ => 0 end.

(** A worker that has passed both loop tests and will call [q.get()]. *)
Definition committed (w : wstate) : nat :=
  match w with WGet => 1 | _ => 0 end.

(** The item a worker is about to probe. *)
Definition in_hand (w : wstate) : list string :=
  match w with WProbe url => [url] | _ => [] end.

Definition total (f : wstate -> nat) (ws : list wstate) : nat := list_sum (map f ws).

(** A URL whose outcome is discarded: answered 400 or 404. *)
Definition discarded (http : string -> response) (url : string) : bool :=
  match http (normalize url) with
  | Response status _ => negb (kept_status status)
  | Failure _ => false
  end.

Definition no_stop (sch : list event) : bool :=
  forallb (fun e => match e with EvStop => false | _ => true end) sch.

(** What holds in every state the pool can reach over [targets]. *)
Definition pool_inv (http : string -> response) (targets : list string) (s : state) : Prop :=
  unfinished s = length (queue s) + total held (workers s)
  /\ checked_count s + total uncounted (workers s) + length (queue s) = length targets
  /\ Permutation
       (results s ++
        flat_map (probe_entries http) (flat_map in_hand (workers s) ++ queue s))
       (flat_map (probe_entries http) targets)
  /\ (coordinator s <> CJoin -> unfinished s = 0)
  /\ total_urls s = length targets
  /\ match coordinator s with
     | CFinally | CDone =>
         (coordinator s = CDone -> stopButton s = false) /\
         ((statusLabel s = "Status: Stopped" /\ stop_event s = true)
          \/ statusLabel s = "Status: Complete")
     | _ => exists rest, statusLabel s = "Checking: " +++ rest
     end.

(** The stop flag is set and fewer workers are past the flag test than
    there are items left in the queue. *)
Definition stopped_short (s : state) : Prop :=
  stop_event s = true /\ total committed (workers s) < length (queue s).

(** One pass of worker 0 through its loop body. *)
Definition one_round : list event := repeat (EvWorker 0) 6.

(** Worker 0 takes and probes the whole queue, one item after the other. *)
Definition drain_alone (q : list string) : list event :=
  concat (map (fun _ => one_round) q).

(** A worker that has not run yet or has ended. *)
Definition idle (w : wstate) : Prop := w = WHead \/ w = WExit.

(** What holds in every state of a pool over the empty queue when Stop is
    not clicked; [out] is the output area at the start of the pool. *)
Definition idle_inv (out : string) (s : state) : Prop :=
  queue s = [] /\ unfinished s = 0 /\ Forall idle (workers s)
  /\ results s = [] /\ probed s = [] /\ checked_count s = 0 /\ stop_event s = false
  /\ match coordinator s with
     | CJoin | CRender => outputArea s = out
     | CStatus => outputArea s = out +++ build_report []
     | CFinally | CDone =>
         outputArea s = (out +++ build_report []) +++ Str.nl +++ "[*] All checks complete."
         /\ statusLabel s = "Status: Complete"
     end.

(** The four labels a run can end with. *)
Definition terminal_labels : list string :=
  ["Status: Complete"; "Status: Stopped"; "Status: Error"; "Status: Fetch Error"].

(** ** Notions used in the further properties *)

(** How far a worker is from the end of its loop body, and the
    coordinator from its return; used to bound the length of a run. *)
Definition rank (w : wstate) : nat :=
  match w with
  | WExit => 0 | WGet => 0 | WFlag => 1 | WHead => 2
  | WTaskDone => 3 | WFinally => 4 | WProbe _ => 5
  end.

Definition crank (c : cstate) : nat :=
  match c with
  | CJoin => 4 | CRender => 3 | CStatus => 2 | CFinally => 1 | CDone => 0
  end.

(** A bound on the number of actions still possible in a state. *)
Definition steps_left (s : state) : nat :=
  6 * length (queue s) + total rank (workers s) + crank (coordinator s)
  + (if stopButton s then 1 else 0).

(** Number of clicks on Stop in a schedule. *)
Definition stop_clicks (sch : list event) : nat :=
  length (filter (fun e => match e with EvStop => true | _ => false end) sch).

(** Stop was not clicked, and no worker has ended while items are left
    in the queue. *)
Definition alive (s : state) : Prop :=
  stop_event s = false /\ (queue s <> [] -> Forall (fun w => w <> WExit) (workers s)).

(** The state after lines 283-293 when Stop was clicked while the archive
    index was being queried: the button is enabled from line 222 on, so
    the workers are started with the flag already set. *)
Definition pool_start_after_stop (out : string) (filtered_urls : list string)
           (thread_count : nat) : state :=
  mkState filtered_urls (length filtered_urls) [] 0 (length filtered_urls)
    true false (repeat WHead thread_count) CJoin out
    ("Checking: 0 / " +++ Str.of_nat (length filtered_urls)) [].

(** A worker of a pool started with the flag set gets no further than
    the test of the flag. *)
Definition turned_away (w : wstate) : Prop := w = WHead \/ w = WFlag \/ w = WExit.


(** The four progress lines of lines 242-280, as the output area holds
    them when the workers are started. *)
Definition progress_lines (domain target : string) (found remaining threads : nat) : string :=
  ((("[*] Preparing to fetch URLs for: " +++ domain +++ Str.nl)
    +++ ("[*] Contacting: " +++ target +++ Str.nl))
   +++ ("[*] Found " +++ Str.of_nat found +++ " total URLs." +++ Str.nl))
  +++ ("[*] " +++ Str.of_nat remaining +++
       " URLs remain after filtering. Starting HTTP checks with " +++
       Str.of_nat threads +++ " threads..." +++ Str.nl +++ Str.nl).

(** Whether a click on Stop comes before the coordinator reads the flag
    at line 314; [reads_left] counts the actions of the coordinator up to
    and including that one (three when the workers are started: the
    return of [q.join()], the rendering, the reading). *)
Fixpoint stop_before_read (reads_left : nat) (sch : list event) : bool :=
  match reads_left, sch with
  | O, _ => false
  | _, [] => false
  | _, EvStop :: _ => true
  | S k, EvCoordinator :: sch' => stop_before_read k sch'
  | S _, EvWorker _ :: sch' => stop_before_read reads_left sch'
  end.

(** Every character of [s] satisfies [P]. *)
Fixpoint all_chars (P : ascii -> bool) (s : string) : bool :=
  match s with
  | "" => true
  | String c s' => P c && all_chars P s'
  end.

(** The characters that would end or split a parameter of a query. *)
Definition query_breaking (c : ascii) : bool :=
  existsb (Ascii.eqb c) ["&"%char; "="%char; "?"%char; "#"%char; " "%char].

(** ** Examples *)

Example strip_ex : Str.strip "  ab c  " = "ab c".
Proof. reflexivity. Qed.
Example of_Z_ex : Str.of_Z (-1050) = "-1050" /\ Str.of_Z 0 = "0" /\ Str.of_Z 512 = "512".
Proof. repeat split; reflexivity. Qed.
Example py_int_ex : Str.py_int " -07 " = Some (-7)%Z /\ Str.py_int "abc" = None /\ Str.py_int "1.5" = None /\ Str.py_int "" = None /\ Str.py_int "-" = None.
Proof. repeat split; reflexivity. Qed.
Example quote_ex : Str.quote "ex ample.com/a?b" = "ex%20ample.com/a%3Fb".
Proof. reflexivity. Qed.
Example endswith_ex : Str.endswith "a.png" ".png" = true /\ Str.endswith "png" ".png" = false.
Proof. split; reflexivity. Qed.

Example sort_ex :
  map item1 (sorted_desc [(200, 100, "a"); (200, -1, "b"); (200, 500, "c"); (-1, -1, "d")]%Z)
  = [500; 100; -1; -1]%Z.
Proof. reflexivity. Qed.

Example scheme_ex :
  spec_has_scheme "http://a/b" = true /\ spec_has_scheme "ftp://a" = true /\
  spec_has_scheme "example.com/c.css" = false /\ spec_has_scheme "//a/b" = false.
Proof. repeat split; reflexivity. Qed.
Example filter_ex :
  filter_urls ["http://example.com/a.png"; "http://example.com/b"; "example.com/c.css"]
  = ["http://example.com/b"].
Proof. reflexivity. Qed.
Example filter_case_ex : filter_urls ["a/LOGO.PNG"; "a/x.woff2"; "a/x.png?v=1"; "a/x.pngx"] = ["a/x.png?v=1"; "a/x.pngx"].
Proof. reflexivity. Qed.

(** ** Facts about strings *)

Lemma append_length (a b : string) :
  String.length (a +++ b) = String.length a + String.length b.
Proof. induction a as [|c a IH]; simpl; [reflexivity | now rewrite IH]. Qed.

Lemma append_assoc (a b c : string) : (a +++ b) +++ c = a +++ b +++ c.
Proof. induction a as [|x a IH]; simpl; [reflexivity | now rewrite IH]. Qed.

Lemma append_nil_r (a : string) : a +++ "" = a.
Proof. induction a as [|x a IH]; simpl; [reflexivity | now rewrite IH]. Qed.

Lemma substring_whole (s : string) : substring 0 (String.length s) s = s.
Proof. induction s as [|c s IH]; simpl; [reflexivity | now rewrite IH]. Qed.

Lemma substring_skip (p s : string) (m : nat) :
  substring (String.length p) m (p +++ s) = substring 0 m s.
Proof. induction p as [|c p IH]; simpl; [reflexivity | exact IH]. Qed.

Lemma substring_tail (s : string) :
  forall n, n <= String.length s ->
  exists front, s = front +++ substring n (String.length s - n) s.
Proof.
  induction s as [|c s IH]; intros n Hn.
  - exists "". simpl in Hn. replace n with 0 by lia. reflexivity.
  - destruct n as [|n].
    + exists "". rewrite Nat.sub_0_r, substring_whole. reflexivity.
    + simpl in Hn. destruct (IH n ltac:(lia)) as [front Hf].
      exists (String c front). simpl. now rewrite <- Hf.
Qed.

Lemma endswith_iff (s suf : string) :
  Str.endswith s suf = true <-> exists front, s = front +++ suf.
Proof.
  unfold Str.endswith. rewrite andb_true_iff, Nat.leb_le, String.eqb_eq. split.
  - intros [Hle Hsub].
    destruct (substring_tail s (String.length s - String.length suf) ltac:(lia)) as [front Hf].
    exists front.
    replace (String.length s - (String.length s - String.length suf))
      with (String.length suf) in Hf by lia.
    now rewrite Hsub in Hf.
  - intros [front ->]. rewrite append_length. split; [lia|].
    replace (String.length front + String.length suf - String.length suf)
      with (String.length front) by lia.
    now rewrite substring_skip, substring_whole.
Qed.

Lemma startswith_iff (s p : string) :
  Str.startswith s p = true <-> exists rest, s = p +++ rest.
Proof.
  revert s. induction p as [|c p IH]; intros s; simpl.
  - split; [intros _; now exists s | reflexivity].
  - destruct s as [|d s].
    + split; [discriminate | intros [rest H]; discriminate].
    + rewrite andb_true_iff, Ascii.eqb_eq, IH. split.
      * intros [-> [rest ->]]. now exists rest.
      * intros [rest H]. injection H as -> ->. split; [reflexivity | now exists rest].
Qed.

Lemma count_nl_append (a b : string) :
  Str.count_nl (a +++ b) = Str.count_nl a + Str.count_nl b.
Proof. induction a as [|c a IH]; simpl; [reflexivity | rewrite IH; lia]. Qed.

Lemma spaces_length (n : nat) : String.length (Str.spaces n) = n.
Proof. induction n as [|n IH]; simpl; [reflexivity | now rewrite IH]. Qed.

Lemma ljust_length (w : nat) (s : string) :
  String.length (Str.ljust w s) = Nat.max w (String.length s).
Proof. unfold Str.ljust. rewrite append_length, spaces_length. lia. Qed.

(** ** The URL filter *)

(** The code's [lower] is lower case by the alphabet. *)
Lemma lower_char_spec (c : ascii) : Str.lower_char c = spec_lower_char c.
Proof. destruct c as [[] [] [] [] [] [] [] []]; reflexivity. Qed.

Lemma lower_spec (s : string) : Str.lower s = spec_lowercase s.
Proof.
  induction s as [|c s IH]; [reflexivity|].
  cbn [Str.lower spec_lowercase]. now rewrite lower_char_spec, IH.
Qed.

Lemma is_excluded_iff (url : string) :
  is_excluded url = true <->
  exists ext, In ext excluded_extensions /\ ends_with_lower url ext.
Proof.
  unfold is_excluded, ends_with_lower. rewrite existsb_exists.
  split; intros [ext [Hin H]]; exists ext; (split; [exact Hin|]).
  - rewrite <- lower_spec. now apply endswith_iff.
  - rewrite <- lower_spec in H. now apply endswith_iff.
Qed.

Lemma is_excluded_false (url : string) :
  is_excluded url = false <->
  forall ext, In ext excluded_extensions -> ~ ends_with_lower url ext.
Proof.
  rewrite <- not_true_iff_false, is_excluded_iff. split.
  - intros H ext Hin He. apply H. now exists ext.
  - intros H [ext [Hin He]]. exact (H ext Hin He).
Qed.

Lemma filter_subseq {A : Type} (f : A -> bool) (l : list A) : subseq (filter f l) l.
Proof.
  induction l as [|x l IH]; simpl; [constructor|].
  destruct (f x); now constructor.
Qed.

(** C3: the filter returns exactly the subsequence of the lines whose
    lowercased form ends with none of the ten suffixes: the result is a
    subsequence of the input (nothing reordered), no retained line ends
    with a denylisted suffix, every line that ends with none is retained
    as often as it occurs, and the empty list is mapped to the empty
    list.  "Lowercased" is [spec_lowercase], the letters A-Z replaced by
    a-z and every other character kept, written down apart from the
    code's [lower]: a suffix in capitals is a suffix. *)
Theorem filter_urls_subsequence :
  excluded_extensions =
    [".eot"; ".svg"; ".woff"; ".woff2"; ".css"; ".ttf"; ".png"; ".jpg"; ".jpeg"; ".gif"]
  /\ filter_urls [] = []
  /\ forall lines : list string,
       subseq (filter_urls lines) lines
       /\ (forall url, In url (filter_urls lines) <->
             In url lines /\
             forall ext, In ext excluded_extensions -> ~ ends_with_lower url ext)
       /\ (forall url,
             (forall ext, In ext excluded_extensions -> ~ ends_with_lower url ext) ->
             count_occ string_dec (filter_urls lines) url = count_occ string_dec lines url)
       /\ (forall url,
             (exists ext, In ext excluded_extensions /\ ends_with_lower url ext) ->
             count_occ string_dec (filter_urls lines) url = 0).
Proof.
  split; [reflexivity|]. split; [reflexivity|]. intros lines.
  split; [apply filter_subseq|]. split; [|split].
  - intros url. unfold filter_urls. rewrite filter_In, negb_true_iff, is_excluded_false.
    reflexivity.
  - intros url Hok. apply is_excluded_false in Hok.
    unfold filter_urls. induction lines as [|x l IH]; simpl; [reflexivity|].
    destruct (string_dec x url) as [->|Hne].
    + rewrite Hok. simpl. destruct (string_dec url url); [now rewrite IH | contradiction].
    + destruct (negb (is_excluded x)); simpl; [|exact IH].
      destruct (string_dec x url); [contradiction | exact IH].
  - intros url Hex. apply is_excluded_iff in Hex.
    apply count_occ_not_In. unfold filter_urls. rewrite filter_In, Hex. simpl.
    intros [_ H]; discriminate.
Qed.

(** Suffixes in upper and mixed case, through the theorem: the lines are
    compared in lower case, so [A.PNG] and [c.Css] are dropped, and the
    line kept is returned as it was written, capitals included. *)
Lemma filter_urls_subsequence_witness :
  let lines := ["http://example.com/A.PNG"; "http://Example.com/B"; "example.com/c.Css"] in
  filter_urls lines = ["http://Example.com/B"]
  /\ subseq (filter_urls lines) lines
  /\ ends_with_lower "http://example.com/A.PNG" ".png"
  /\ count_occ string_dec (filter_urls lines) "http://example.com/A.PNG" = 0
  /\ ends_with_lower "example.com/c.Css" ".css"
  /\ count_occ string_dec (filter_urls lines) "example.com/c.Css" = 0.
Proof.
  intros lines.
  assert (Hpng : ends_with_lower "http://example.com/A.PNG" ".png")
    by (exists "http://example.com/a"; reflexivity).
  assert (Hcss : ends_with_lower "example.com/c.Css" ".css")
    by (exists "example.com/c"; reflexivity).
  split; [reflexivity|].
  split; [exact (proj1 (proj2 (proj2 filter_urls_subsequence) lines))|].
  split; [exact Hpng|]. split; [|split; [exact Hcss|]].
  - apply (proj2 (proj2 (proj2 (proj2 (proj2 filter_urls_subsequence) lines)))).
    exists ".png". split; [|exact Hpng]. simpl. tauto.
  - apply (proj2 (proj2 (proj2 (proj2 (proj2 filter_urls_subsequence) lines)))).
    exists ".css". split; [|exact Hcss]. simpl. tauto.
Defined.

(** ** Scheme normalisation (lines 191-192) *)

Lemma normalize_http (url : string) :
  Str.startswith url "http://" = true \/ Str.startswith url "https://" = true ->
  normalize url = url.
Proof. unfold normalize. intros [-> | ->]; [reflexivity | now rewrite orb_true_r]. Qed.

Lemma normalize_other (url : string) :
  Str.startswith url "http://" = false -> Str.startswith url "https://" = false ->
  normalize url = "http://" +++ url.
Proof. unfold normalize. now intros -> ->. Qed.

Lemma has_scheme_startswith (url : string) :
  Str.startswith url "http://" = true \/ Str.startswith url "https://" = true ->
  spec_has_scheme url = true.
Proof.
  intros [H | H]; apply startswith_iff in H; destruct H as [rest ->]; reflexivity.
Qed.

(** ** Facts about lists of threads *)

Lemma set_nth_length {A : Type} (i : nat) (x : A) (l : list A) :
  length (set_nth i x l) = length l.
Proof.
  revert i. induction l as [|y l IH]; intros [|i]; simpl; auto.
Qed.

Lemma nth_error_set_nth_eq {A : Type} (i : nat) (x : A) (l : list A) :
  i < length l -> nth_error (set_nth i x l) i = Some x.
Proof.
  revert i. induction l as [|y l IH]; intros [|i] H; simpl in *; try lia; auto.
  apply IH. lia.
Qed.

Lemma nth_error_set_nth_neq {A : Type} (i j : nat) (x : A) (l : list A) :
  j <> i -> nth_error (set_nth i x l) j = nth_error l j.
Proof.
  revert i j. induction l as [|y l IH]; intros [|i] [|j] H; simpl; auto.
  contradiction.
Qed.

Lemma nth_error_in_range {A : Type} (l : list A) (i : nat) (x : A) :
  nth_error l i = Some x -> i < length l.
Proof. intros H. apply nth_error_Some. congruence. Qed.

(** ** The probe *)

Lemma kept_status_false (status : Z) :
  kept_status status = false <-> (status = 400 \/ status = 404)%Z.
Proof.
  unfold kept_status. simpl. rewrite negb_false_iff, orb_false_r, orb_true_iff, !Z.eqb_eq.
  reflexivity.
Qed.

Lemma kept_status_true (status : Z) :
  kept_status status = true <-> (status <> 400 /\ status <> 404)%Z.
Proof.
  unfold kept_status. simpl.
  rewrite negb_true_iff, orb_false_r, orb_false_iff, !Z.eqb_neq. reflexivity.
Qed.

(** C4: what one probe adds to the results.  With the request answered
    400 or 404 nothing is appended; with any other status the tuple of
    that status, the declared length and the URL is appended; when the
    request raises an exception the tuple (-1, -1, detail) is appended,
    where the detail contains the URL and the cause.  In every case the
    worker goes on into its [finally] block, and no other thread, the
    queue, the stop flag or the coordinator is touched: the failure is
    data.  The claim fails on the code for the failure that does not
    raise: for a response that is not valid HTTP [getResponseCode] gives
    -1, and the entry appended is (-1, declared length, URL): its size is
    whatever was declared, its text is the bare URL without a cause, and
    the report shows that URL alone on a line. *)
Theorem probe_failure_is_data :
  forall (http : string -> response) (url : string),
    (forall status size,
        http (normalize url) = Response status size ->
        (status = 400 \/ status = 404)%Z ->
        probe_entries http url = [])
    /\ (forall status size,
        http (normalize url) = Response status size ->
        (status <> 400 /\ status <> 404)%Z ->
        probe_entries http url = [(status, size, normalize url)])
    /\ (forall cause,
        http (normalize url) = Failure cause ->
        exists detail,
          probe_entries http url = [((-1)%Z, (-1)%Z, detail)]
          /\ Str.contains detail (normalize url)
          /\ Str.contains detail url
          /\ Str.contains detail cause)
    /\ (forall (s : state) (i : nat),
        nth_error (workers s) i = Some (WProbe url) ->
        exists s',
          step http (EvWorker i) s = Some s'
          /\ results s' = results s ++ probe_entries http url
          /\ nth_error (workers s') i = Some WFinally
          /\ (forall j, j <> i -> nth_error (workers s') j = nth_error (workers s) j)
          /\ queue s' = queue s /\ unfinished s' = unfinished s
          /\ stop_event s' = stop_event s /\ coordinator s' = coordinator s)
    /\ (forall size,
        http (normalize url) = Response (-1) size ->
        probe_entries http url = [((-1)%Z, size, normalize url)]
        /\ render_item ((-1)%Z, size, normalize url) = normalize url +++ Str.nl).
Proof.
  intros http url.
  assert (Hneg : forall size,
            http (normalize url) = Response (-1) size ->
            probe_entries http url = [((-1)%Z, size, normalize url)]
            /\ render_item ((-1)%Z, size, normalize url) = normalize url +++ Str.nl).
  { intros size H. unfold probe_entries. rewrite H. split; reflexivity. }
  split; [|split; [|split; [|split; [|exact Hneg]]]]; unfold probe_entries.
  - intros status size -> H. apply kept_status_false in H. now rewrite H.
  - intros status size -> H. apply kept_status_true in H. now rewrite H.
  - intros cause ->. eexists. split; [reflexivity|]. split; [|split].
    + exists "[!] Error on ", (": " +++ cause). reflexivity.
    + unfold normalize.
      destruct (Str.startswith url "http://" || Str.startswith url "https://").
      * exists "[!] Error on ", (": " +++ cause). reflexivity.
      * exists "[!] Error on http://", (": " +++ cause).
        rewrite !append_assoc. reflexivity.
    + exists ("[!] Error on " +++ normalize url +++ ": "), "".
      rewrite append_nil_r, !append_assoc. simpl. now rewrite ?append_assoc.
  - intros s i Hi. unfold step. rewrite Hi. simpl.
    eexists. split; [reflexivity|]. simpl.
    pose proof (nth_error_in_range _ _ _ Hi) as Hlt.
    repeat split; auto using nth_error_set_nth_eq.
    intros j Hj. now apply nth_error_set_nth_neq.
Qed.

(** An unreachable host, a 404, a 200 and a response that is not HTTP,
    through the theorem. *)
Lemma probe_failure_is_data_witness :
  let http := fun u : string =>
    if String.eqb u "http://down.example/b" then Failure "connect timed out"
    else if String.eqb u "http://example.com/gone" then Response 404 12
    else if String.eqb u "http://s/neg" then Response (-1) 77
    else Response 200 512 in
  probe_entries http "down.example/b"
    = [((-1)%Z, (-1)%Z, "[!] Error on http://down.example/b: connect timed out")]
  /\ probe_entries http "http://example.com/gone" = []
  /\ probe_entries http "http://example.com/b" = [(200%Z, 512%Z, "http://example.com/b")]
  /\ (exists detail,
        probe_entries http "down.example/b" = [((-1)%Z, (-1)%Z, detail)]
        /\ Str.contains detail "http://down.example/b"
        /\ Str.contains detail "down.example/b"
        /\ Str.contains detail "connect timed out")
  /\ probe_entries http "s/neg" = [((-1)%Z, 77%Z, "http://s/neg")]
  /\ build_report (probe_entries http "s/neg")
     = headers +++ separator +++ "http://s/neg" +++ Str.nl.
Proof.
  intros http. split; [reflexivity|]. split; [reflexivity|]. split; [reflexivity|].
  split; [|split; [|reflexivity]].
  - exact (proj1 (proj2 (proj2 (probe_failure_is_data http "down.example/b")))
             "connect timed out" eq_refl).
  - exact (proj1 (proj2 (proj2 (proj2 (proj2 (probe_failure_is_data http "s/neg"))))
                    77%Z eq_refl)).
Defined.

(** C8, as stated, fails: a URL with a scheme other than lower-case
    [http] or [https] is not probed unchanged. *)
Lemma scheme_kept_counterexample :
  spec_has_scheme "ftp://example.com/a" = true
  /\ normalize "ftp://example.com/a" = "http://ftp://example.com/a"
  /\ spec_has_scheme "HTTPS://example.com/" = true
  /\ normalize "HTTPS://example.com/" = "http://HTTPS://example.com/"
  /\ ~ (forall url, spec_has_scheme url = true -> normalize url = url).
Proof.
  repeat split. intros H. specialize (H "ftp://example.com/a" eq_refl). discriminate H.
Qed.

(** C8, amended: the URL that is probed is [normalize] of the dequeued
    one.  A URL that starts with [http://] or [https://] (in lower case)
    is probed unchanged; every other URL, so every URL without a scheme
    and also every URL with another scheme, gets [http://] in front.
    The probed URL always has a scheme. *)
Theorem normalize_scheme :
  forall (http : string -> response) (url : string),
    (Str.startswith url "http://" = true \/ Str.startswith url "https://" = true ->
       normalize url = url)
    /\ (Str.startswith url "http://" = false /\ Str.startswith url "https://" = false ->
       normalize url = "http://" +++ url)
    /\ (spec_has_scheme url = false -> normalize url = "http://" +++ url)
    /\ spec_has_scheme (normalize url) = true
    /\ (forall (s : state) (i : nat),
         nth_error (workers s) i = Some (WProbe url) ->
         exists s', step http (EvWorker i) s = Some s'
                    /\ probed s' = probed s ++ [normalize url]).
Proof.
  intros http url. split; [apply normalize_http|].
  split; [intros [H1 H2]; now apply normalize_other|]. split; [|split].
  - intros Hs. apply normalize_other.
    + destruct (Str.startswith url "http://") eqn:E; [|reflexivity].
      rewrite has_scheme_startswith in Hs; [discriminate | now left].
    + destruct (Str.startswith url "https://") eqn:E; [|reflexivity].
      rewrite has_scheme_startswith in Hs; [discriminate | now right].
  - unfold normalize.
    destruct (Str.startswith url "http://") eqn:E1.
    + apply has_scheme_startswith. now left.
    + destruct (Str.startswith url "https://") eqn:E2.
      * apply has_scheme_startswith. now right.
      * reflexivity.
  - intros s i Hi. unfold step. rewrite Hi. simpl. eexists. split; reflexivity.
Qed.

Lemma normalize_scheme_witness :
  normalize "https://example.com/b" = "https://example.com/b"
  /\ normalize "example.com/c" = "http://example.com/c"
  /\ normalize "//example.com/c" = "http://" +++ "//example.com/c".
Proof.
  split; [|split].
  - apply (proj1 (normalize_scheme (fun _ => Failure "") "https://example.com/b")).
    right. reflexivity.
  - apply (proj1 (proj2 (normalize_scheme (fun _ => Failure "") "example.com/c"))).
    split; reflexivity.
  - apply (proj1 (proj2 (proj2 (normalize_scheme (fun _ => Failure "") "//example.com/c")))).
    reflexivity.
Defined.

(** ** The report *)

Section Report.

Local Open Scope Z_scope.

Lemma insert_desc_perm (x : result) (l : list result) :
  Permutation (insert_desc x l) (x :: l).
Proof.
  induction l as [|y l IH]; simpl; [reflexivity|].
  destruct (item1 y <=? item1 x); [reflexivity|].
  rewrite IH. apply perm_swap.
Qed.

Lemma sorted_desc_perm (l : list result) : Permutation (sorted_desc l) l.
Proof.
  induction l as [|x l IH]; simpl; [reflexivity|].
  rewrite insert_desc_perm. now constructor.
Qed.

Lemma insert_desc_sorted (x : result) (l : list result) :
  StronglySorted size_ge l -> StronglySorted size_ge (insert_desc x l).
Proof.
  induction 1 as [|y l Hs IH Hall]; simpl.
  - repeat constructor.
  - destruct (item1 y <=? item1 x) eqn:E.
    + apply Z.leb_le in E. constructor; [now constructor|].
      constructor; [exact E|].
      eapply Forall_impl; [|exact Hall]. unfold size_ge. intros; lia.
    + apply Z.leb_gt in E. constructor; [exact IH|].
      eapply Permutation_Forall; [symmetry; apply insert_desc_perm|].
      constructor; [unfold size_ge; lia | exact Hall].
Qed.

Lemma sorted_desc_sorted (l : list result) : StronglySorted size_ge (sorted_desc l).
Proof.
  induction l as [|x l IH]; simpl; [constructor | now apply insert_desc_sorted].
Qed.

(** Stability: entries of one size keep the order they had. *)
Lemma insert_desc_filter (k : Z) (x : result) (l : list result) :
  filter (fun r => item1 r =? k) (insert_desc x l)
  = filter (fun r => item1 r =? k) (x :: l).
Proof.
  induction l as [|y l IH]; [reflexivity|]. simpl.
  destruct (item1 y <=? item1 x) eqn:E; [reflexivity|].
  apply Z.leb_gt in E. simpl in *. rewrite IH.
  destruct (item1 x =? k) eqn:Ex; [|reflexivity].
  destruct (item1 y =? k) eqn:Ey; [|reflexivity].
  apply Z.eqb_eq in Ex, Ey. lia.
Qed.

Lemma sorted_desc_stable (k : Z) (l : list result) :
  filter (fun r => item1 r =? k) (sorted_desc l) = filter (fun r => item1 r =? k) l.
Proof.
  induction l as [|x l IH]; [reflexivity|]. simpl sorted_desc.
  rewrite insert_desc_filter. simpl. now rewrite IH.
Qed.

Lemma insert_desc_app_low (x : result) (A B : list result) :
  Forall (fun b => item1 b <= item1 x) B ->
  insert_desc x (A ++ B) = insert_desc x A ++ B.
Proof.
  intros HB. induction A as [|a A IH]; simpl.
  - destruct HB as [|b B Hb _]; [reflexivity|]. simpl.
    apply Z.leb_le in Hb. now rewrite Hb.
  - destruct (item1 a <=? item1 x); [reflexivity | now rewrite IH].
Qed.

Lemma insert_desc_app_high (x : result) (A B : list result) :
  Forall (fun a => item1 x < item1 a) A ->
  insert_desc x (A ++ B) = A ++ insert_desc x B.
Proof.
  induction 1 as [|a A Ha _ IH]; simpl; [reflexivity|].
  apply Z.leb_gt in Ha. now rewrite Ha, IH.
Qed.

(** With no size below -1, the entries of unknown size come last, in the
    order they had, after the sorted entries of known size. *)
Lemma sorted_desc_unknown_last (l : list result) :
  Forall (fun r => -1 <= item1 r) l ->
  sorted_desc l = sorted_desc (filter size_known l) ++ filter size_unknown l.
Proof.
  induction 1 as [|x l Hx Hl IH]; [reflexivity|].
  simpl sorted_desc. rewrite IH. unfold size_known, size_unknown at 2. simpl.
  fold size_unknown. change (fun r => negb (item1 r =? -1)) with size_known.
  destruct (item1 x =? -1) eqn:E; simpl.
  - apply Z.eqb_eq in E. rewrite insert_desc_app_high.
    + f_equal. apply (insert_desc_app_low x [] (filter size_unknown l)).
      apply Forall_forall. intros b Hb. apply filter_In in Hb.
      destruct Hb as [_ Hb]. apply Z.eqb_eq in Hb. lia.
    + apply Forall_forall. intros a Ha.
      apply (Permutation_in _ (sorted_desc_perm _)) in Ha.
      apply filter_In in Ha. destruct Ha as [Ha Hk].
      rewrite Forall_forall in Hl. specialize (Hl a Ha).
      unfold size_known in Hk. apply negb_true_iff, Z.eqb_neq in Hk. lia.
  - apply Z.eqb_neq in E. apply insert_desc_app_low.
    apply Forall_forall. intros b Hb. apply filter_In in Hb.
    destruct Hb as [_ Hb]. apply Z.eqb_eq in Hb. lia.
Qed.

End Report.

(** Width of a rendered number. *)
Lemma digits_fuel_length (fuel : nat) :
  forall n k acc, 1 <= k -> n < 10 ^ k ->
  String.length (Str.digits_fuel fuel n acc) <= k + String.length acc.
Proof.
  induction fuel as [|fuel IH]; intros n k acc Hk Hn; simpl; [lia|].
  destruct (Nat.ltb n 10) eqn:E; simpl; [lia|].
  apply Nat.ltb_ge in E.
  destruct k as [|[|k]]; [lia | simpl in Hn; lia |].
  specialize (IH (n / 10) (S k) (String (Str.digit_char (n mod 10)) acc) ltac:(lia)).
  simpl String.length in IH. etransitivity; [apply IH|lia].
  apply Nat.Div0.div_lt_upper_bound.
  change (10 ^ S (S k)) with (10 * 10 ^ S k) in Hn. exact Hn.
Qed.

Lemma of_nat_length (n k : nat) :
  1 <= k -> n < 10 ^ k -> String.length (Str.of_nat n) <= k.
Proof.
  intros Hk Hn. unfold Str.of_nat.
  pose proof (digits_fuel_length (S n) n k "" Hk Hn) as H.
  change (String.length "") with 0 in H. now rewrite Nat.add_0_r in H.
Qed.

Lemma of_Z_length_nonneg (z : Z) (k : nat) :
  1 <= k -> (0 <= z < 10 ^ Z.of_nat k)%Z -> String.length (Str.of_Z z) <= k.
Proof.
  intros Hk [H0 Hz].
  assert (Hn : Z.to_nat z < 10 ^ k).
  { apply Nat2Z.inj_lt. rewrite Z2Nat.id by exact H0.
    rewrite Nat2Z.inj_pow. exact Hz. }
  destruct z as [|p|p]; try lia; unfold Str.of_Z; now apply of_nat_length.
Qed.

Lemma format_row_columns (a b c : string) :
  String.length a <= 8 -> String.length b <= 15 ->
  exists front, format_row a b c = front +++ c +++ Str.nl /\ String.length front = 25.
Proof.
  intros Ha Hb. exists (Str.ljust 8 a +++ " " +++ Str.ljust 15 b +++ " "). split.
  - unfold format_row. now rewrite !append_assoc.
  - rewrite !append_length, !ljust_length. change (String.length " ") with 1. lia.
Qed.

Example headers_ex :
  headers = "Status   Response Size   URL" +++ Str.nl
  /\ separator = "------   -------------   ---" +++ Str.nl.
Proof. split; reflexivity. Qed.

(** C5: the report is the header, the separator and one rendered entry
    per outcome, in the order of a descending sort by size: the
    rendered entries are a permutation of the collection (none dropped),
    sortedness holds, entries of size -1 come last (no size is below -1)
    and four outcomes of sizes 100, -1, 500, -1 come out as 500, 100, -1,
    -1.  An entry of status -1 is rendered as its text and a line feed
    alone; every other entry as three left-aligned columns of width 8,
    15 and the rest, with [N/A] for size -1, the third column starting at
    offset 25.  The report is a function of the collection. *)
Theorem report_sorted_and_complete :
  forall results : list result,
    build_report results
      = headers +++ separator +++ Str.concat_all (map render_item (sorted_desc results))
    /\ Permutation (sorted_desc results) results
    /\ length (map render_item (sorted_desc results)) = length results
    /\ StronglySorted size_ge (sorted_desc results)
    /\ (Forall (fun r => (-1 <= item1 r)%Z) results ->
        sorted_desc results
          = sorted_desc (filter size_known results) ++ filter size_unknown results)
    /\ (forall (s1 s2 s3 s4 : Z) (u1 u2 u3 u4 : string),
        sorted_desc [(s1, 100, u1); (s2, -1, u2); (s3, 500, u3); (s4, -1, u4)]%Z
          = [(s3, 500, u3); (s1, 100, u1); (s2, -1, u2); (s4, -1, u4)]%Z)
    /\ (forall (size : Z) (text : string),
        render_item ((-1)%Z, size, text) = text +++ Str.nl
        /\ (Str.count_nl text = 0 -> Str.count_nl (render_item ((-1)%Z, size, text)) = 1))
    /\ (forall (status size : Z) (url : string),
        status <> (-1)%Z ->
        render_item (status, size, url)
          = format_row (Str.of_Z status)
              (if (size =? -1)%Z then "N/A" else Str.of_Z size) url)
    /\ (forall (status size : Z) (url : string),
        (0 <= status < 10 ^ 8)%Z -> (-1 <= size < 10 ^ 15)%Z ->
        exists front,
          render_item (status, size, url) = front +++ url +++ Str.nl
          /\ String.length front = 25)
    /\ (forall again : list result, again = results -> build_report again = build_report results).
Proof.
  intros results.
  split; [reflexivity|].
  split; [apply sorted_desc_perm|].
  split; [rewrite length_map; apply Permutation_length, sorted_desc_perm|].
  split; [apply sorted_desc_sorted|].
  split; [apply sorted_desc_unknown_last|].
  split; [reflexivity|].
  split.
  { intros size text. split; [reflexivity|].
    intros H. simpl. rewrite count_nl_append, H. reflexivity. }
  split.
  { intros status size url H. unfold render_item.
    apply Z.eqb_neq in H. rewrite H. now destruct (size =? -1)%Z. }
  split.
  { intros status size url Hst Hsz. unfold render_item.
    replace (status =? -1)%Z with false by (symmetry; apply Z.eqb_neq; lia).
    apply format_row_columns.
    - apply (of_Z_length_nonneg status 8); [lia | exact Hst].
    - destruct (size =? -1)%Z eqn:E; simpl; [lia|].
      apply Z.eqb_neq in E. apply (of_Z_length_nonneg size 15); lia. }
  intros again ->. reflexivity.
Qed.

(** The four sizes of the description, with one failed probe among them. *)
Lemma report_sorted_and_complete_witness :
  let rs := [(200, 100, "http://a/1"); (301, -1, "http://a/2");
             (200, 500, "http://a/3"); (-1, -1, "[!] Error on http://a/4: refused")]%Z in
  sorted_desc rs = sorted_desc (filter size_known rs) ++ filter size_unknown rs
  /\ map item1 (sorted_desc rs) = [500; 100; -1; -1]%Z
  /\ build_report rs
     = "Status   Response Size   URL" +++ Str.nl +++
       "------   -------------   ---" +++ Str.nl +++
       "200      500             http://a/3" +++ Str.nl +++
       "200      100             http://a/1" +++ Str.nl +++
       "301      N/A             http://a/2" +++ Str.nl +++
       "[!] Error on http://a/4: refused" +++ Str.nl.
Proof.
  intros rs. split; [|split; reflexivity].
  apply (proj1 (proj2 (proj2 (proj2 (proj2 (report_sorted_and_complete rs)))))).
  unfold rs. repeat (apply Forall_cons; [unfold item1; simpl; lia|]). apply Forall_nil.
Defined.

(** ** The pool: bookkeeping over the threads *)

Lemma total_set_nth (f : wstate -> nat) (i : nat) (w w' : wstate) (ws : list wstate) :
  nth_error ws i = Some w ->
  total f (set_nth i w' ws) + f w = total f ws + f w'.
Proof.
  unfold total. revert i. induction ws as [|y ws IH]; intros [|i] H; simpl in *;
    try discriminate.
  - injection H as ->. lia.
  - specialize (IH i H). lia.
Qed.

Lemma total_nth_le (f : wstate -> nat) (i : nat) (w : wstate) (ws : list wstate) :
  nth_error ws i = Some w -> f w <= total f ws.
Proof.
  unfold total. revert i. induction ws as [|y ws IH]; intros [|i] H; simpl in *;
    try discriminate.
  - injection H as ->. lia.
  - specialize (IH i H). lia.
Qed.

Lemma total_repeat_head (f : wstate -> nat) (n : nat) :
  f WHead = 0 -> total f (repeat WHead n) = 0.
Proof. intros H. unfold total. induction n as [|n IH]; simpl; [reflexivity | lia]. Qed.

Lemma in_hand_set_nth (i : nat) (w w' : wstate) (ws : list wstate) :
  nth_error ws i = Some w ->
  Permutation (flat_map in_hand (set_nth i w' ws) ++ in_hand w)
              (flat_map in_hand ws ++ in_hand w').
Proof.
  revert i. induction ws as [|y ws IH]; intros [|i] H; simpl in *; try discriminate.
  - injection H as ->. rewrite <- !app_assoc.
    rewrite (Permutation_app_comm (flat_map in_hand ws) (in_hand w)).
    rewrite (Permutation_app_comm (flat_map in_hand ws) (in_hand w')).
    apply Permutation_app_swap_app.
  - rewrite <- !app_assoc. apply Permutation_app_head. now apply IH.
Qed.

Lemma in_hand_repeat_head (n : nat) : flat_map in_hand (repeat WHead n) = [].
Proof. induction n as [|n IH]; simpl; [reflexivity | exact IH]. Qed.

Lemma probe_entries_length (http : string -> response) (url : string) :
  length (probe_entries http url) + (if discarded http url then 1 else 0) = 1.
Proof.
  unfold probe_entries, discarded. destruct (http (normalize url)); [|reflexivity].
  now destruct (kept_status status).
Qed.

Lemma flat_map_probe_length (http : string -> response) (l : list string) :
  length (flat_map (probe_entries http) l) + length (filter (discarded http) l) = length l.
Proof.
  induction l as [|u l IH]; simpl; [reflexivity|].
  rewrite length_app. pose proof (probe_entries_length http u) as H.
  destruct (discarded http u); simpl; lia.
Qed.

Section Pool.

Variable http : string -> response.

Lemma exec_app (sch1 sch2 : list event) (s : state) :
  exec http (sch1 ++ sch2) s =
  match exec http sch1 s with Some s1 => exec http sch2 s1 | None => None end.
Proof.
  revert s. induction sch1 as [|e sch1 IH]; intros s; simpl; [reflexivity|].
  destruct (step http e s); [apply IH | reflexivity].
Qed.

(** Induction along a schedule whose events all satisfy [allowed]. *)
Lemma exec_invariant (allowed : event -> bool) (P : state -> Prop) :
  (forall e s s', allowed e = true -> P s -> step http e s = Some s' -> P s') ->
  forall sch s s',
    forallb allowed sch = true -> P s -> exec http sch s = Some s' -> P s'.
Proof.
  intros Hstep. induction sch as [|e sch IH]; intros s s' Hall Hs Hex; simpl in *.
  - now injection Hex as <-.
  - apply andb_true_iff in Hall. destruct Hall as [He Hall].
    destruct (step http e s) as [s1|] eqn:E; [|discriminate].
    exact (IH s1 s' Hall (Hstep e s s1 He Hs E) Hex).
Qed.

Lemma forallb_any (sch : list event) : forallb (fun _ => true) sch = true.
Proof. induction sch; simpl; auto. Qed.

Variable targets : list string.

Lemma pool_inv_start (out : string) (thread_count : nat) :
  pool_inv http targets (pool_start out targets thread_count).
Proof.
  unfold pool_inv, pool_start. simpl.
  rewrite !total_repeat_head by reflexivity. rewrite in_hand_repeat_head. simpl.
  repeat split; try lia.
  - reflexivity.
  - intros H. now contradiction H.
  - eexists. reflexivity.
Qed.

End Pool.

Section PoolSteps.

Variable http : string -> response.
Variable targets : list string.

Lemma pending_same (rs : list result) (hand hand' q q' : list string) (T : list result) :
  Permutation (hand' ++ q') (hand ++ q) ->
  Permutation (rs ++ flat_map (probe_entries http) (hand ++ q)) T ->
  Permutation (rs ++ flat_map (probe_entries http) (hand' ++ q')) T.
Proof.
  intros H1 H2. etransitivity; [|exact H2].
  apply Permutation_app_head, Permutation_flat_map, H1.
Qed.

Lemma pending_probed (rs : list result) (url : string) (hand hand' q : list string)
      (T : list result) :
  Permutation (hand' ++ [url]) hand ->
  Permutation (rs ++ flat_map (probe_entries http) (hand ++ q)) T ->
  Permutation ((rs ++ probe_entries http url) ++ flat_map (probe_entries http) (hand' ++ q)) T.
Proof.
  intros H1 H2. etransitivity; [|exact H2].
  rewrite <- app_assoc. apply Permutation_app_head.
  change (probe_entries http url ++ flat_map (probe_entries http) (hand' ++ q))
    with (flat_map (probe_entries http) (url :: hand' ++ q)).
  apply Permutation_flat_map.
  rewrite <- H1, <- app_assoc. simpl. apply Permutation_middle.
Qed.

Ltac worker_facts Th Tu Tp :=
  match goal with
  | |- context [set_nth _ ?w' _] =>
      let h := fresh "Hh" in let u := fresh "Hu" in let p := fresh "Hp" in
      pose proof (Th w') as h; pose proof (Tu w') as u; pose proof (Tp w') as p;
      simpl in h, u, p; rewrite ?app_nil_r in p
  end.

Lemma pool_inv_step (e : event) (s s' : state) :
  pool_inv http targets s -> step http e s = Some s' -> pool_inv http targets s'.
Proof.
  intros (A & B & C & D & E & L) Hstep.
  destruct e as [i| |]; simpl in Hstep.
  - destruct (nth_error (workers s) i) as [w|] eqn:Hw; [|discriminate].
    pose proof (fun w' => total_set_nth held i w w' _ Hw) as Th.
    pose proof (fun w' => total_set_nth uncounted i w w' _ Hw) as Tu.
    pose proof (fun w' => in_hand_set_nth i w w' _ Hw) as Tp.
    pose proof (total_nth_le held i w _ Hw) as Hle.
    destruct w; simpl in Hstep, Hle.
    + (* loop head *)
      destruct (queue s) as [|u q] eqn:Q; injection Hstep as <-;
        unfold pool_inv; simpl; worker_facts Th Tu Tp; rewrite ?Q;
        (repeat split; [simpl in *; lia | simpl in *; lia | | exact D | exact E | exact L]);
        (eapply pending_same; [|exact C]);
        now apply Permutation_app_tail.
    + (* stop flag *)
      destruct (stop_event s) eqn:St; injection Hstep as <-;
        unfold pool_inv; simpl; worker_facts Th Tu Tp;
        (repeat split; [lia | lia | | exact D | exact E | rewrite ?St; exact L]);
        (eapply pending_same; [|exact C]); now apply Permutation_app_tail.
    + (* q.get() *)
      destruct (queue s) as [|u q] eqn:Q; [discriminate|]. injection Hstep as <-.
      unfold pool_inv; simpl; worker_facts Th Tu Tp. simpl in A, B.
      repeat split; [lia | lia | | exact D | exact E | exact L].
      eapply pending_same; [|exact C].
      rewrite Hp, <- app_assoc. reflexivity.
    + (* the try block *)
      injection Hstep as <-. unfold pool_inv; simpl; worker_facts Th Tu Tp.
      repeat split; [lia | lia | | exact D | exact E | exact L].
      eapply pending_probed; [exact Hp | exact C].
    + (* counting *)
      injection Hstep as <-. unfold pool_inv; simpl; worker_facts Th Tu Tp.
      repeat split; [lia | lia | | exact D | exact E | ].
      * eapply pending_same; [|exact C]. now apply Permutation_app_tail.
      * destruct (coordinator s) eqn:Co; try (eexists; reflexivity);
          (assert (unfinished s = 0) by (apply D; discriminate)); lia.
    + (* task_done *)
      destruct (unfinished s) as [|n] eqn:U; [lia|]. injection Hstep as <-.
      unfold pool_inv; simpl; worker_facts Th Tu Tp.
      repeat split; [lia | lia | | | exact E | exact L].
      * eapply pending_same; [|exact C]. now apply Permutation_app_tail.
      * intros Hc. specialize (D Hc). discriminate.
    + discriminate.
  - (* the coordinator *)
    unfold coordinator_step in Hstep. destruct (coordinator s) eqn:Co.
    + destruct (unfinished s) eqn:U; [|discriminate]. injection Hstep as <-.
      unfold pool_inv; simpl. repeat split; auto.
    + injection Hstep as <-. unfold pool_inv; simpl.
      repeat split; auto. intros _. apply D. discriminate.
    + assert (U : unfinished s = 0) by (apply D; discriminate).
      destruct (stop_event s) eqn:St; injection Hstep as <-;
        unfold pool_inv; simpl; rewrite ?St;
        (split; [exact A|]); (split; [exact B|]); (split; [exact C|]);
        (split; [auto|]); (split; [exact E|]); (split; [discriminate|]); auto.
    + assert (U : unfinished s = 0) by (apply D; discriminate).
      injection Hstep as <-. unfold pool_inv; simpl.
      split; [exact A|]. split; [exact B|]. split; [exact C|]. split; [auto|].
      split; [exact E|]. split; [reflexivity | apply L].
    + discriminate.
  - (* the Stop button *)
    unfold stop_click in Hstep. destruct (stopButton s) eqn:Sb; [|discriminate].
    injection Hstep as <-. unfold pool_inv; simpl.
    split; [exact A|]. split; [exact B|]. split; [exact C|]. split; [exact D|].
    split; [exact E|].
    destruct (coordinator s); try exact L;
      (split; [reflexivity|]); destruct L as [_ [[L _] | L]]; auto.
Qed.

Lemma pool_inv_exec (out : string) (thread_count : nat) (sch : list event) (s : state) :
  exec http sch (pool_start out targets thread_count) = Some s ->
  pool_inv http targets s.
Proof.
  intros H.
  apply (exec_invariant http (fun _ => true) (pool_inv http targets)
           (fun e s0 s1 _ => pool_inv_step e s0 s1) sch _ s (forallb_any sch)
           (pool_inv_start http targets out thread_count) H).
Qed.

Lemma pool_inv_exec_from (sch : list event) (s s' : state) :
  pool_inv http targets s -> exec http sch s = Some s' -> pool_inv http targets s'.
Proof.
  intros Hs H.
  apply (exec_invariant http (fun _ => true) (pool_inv http targets)
           (fun e s0 s1 _ => pool_inv_step e s0 s1) sch s s' (forallb_any sch) Hs H).
Qed.

End PoolSteps.

Section Cancellation.

Variable http : string -> response.

Lemma stopped_short_step (e : event) (s s' : state) :
  stopped_short s -> step http e s = Some s' -> stopped_short s'.
Proof.
  intros [St Hc] Hstep. unfold stopped_short.
  destruct e as [i| |]; simpl in Hstep.
  - destruct (nth_error (workers s) i) as [w|] eqn:Hw; [|discriminate].
    pose proof (fun w' => total_set_nth committed i w w' _ Hw) as Tc.
    destruct w; simpl in Hstep.
    + destruct (queue s) eqn:Q; injection Hstep as <-; simpl; rewrite ?Q;
        [specialize (Tc WExit) | specialize (Tc WFlag)]; simpl in *; split; auto; lia.
    + rewrite St in Hstep. injection Hstep as <-. simpl.
      specialize (Tc WExit). simpl in Tc. split; auto; lia.
    + destruct (queue s) as [|u q] eqn:Q; [discriminate|]. injection Hstep as <-. simpl.
      specialize (Tc (WProbe u)). simpl in *. split; auto; lia.
    + injection Hstep as <-. simpl. specialize (Tc WFinally). simpl in Tc. split; auto; lia.
    + injection Hstep as <-. simpl. specialize (Tc WTaskDone). simpl in Tc. split; auto; lia.
    + destruct (unfinished s) eqn:U; injection Hstep as <-; simpl;
        [specialize (Tc WExit) | specialize (Tc WHead)]; simpl in Tc; split; auto; lia.
    + discriminate.
  - unfold coordinator_step in Hstep.
    destruct (coordinator s); [destruct (unfinished s)| |destruct (stop_event s)| |];
      try discriminate; injection Hstep as <-; simpl; auto.
  - unfold stop_click in Hstep. destruct (stopButton s); [|discriminate].
    injection Hstep as <-. simpl. auto.
Qed.

(** C1: the claim fails on the code.  Once the stop flag is set while
    the queue still holds more items than there are workers already past
    the flag test, the workers leave those items in the queue, the count
    of unfinished tasks stays above zero, and in no later state has
    [q.join()] returned: the coordinator is still blocked, the status is
    still a progress text and never [Stopped], and the count of checked
    URLs stays below the total.  What does hold: a worker that tests the
    flag leaves its loop, and the flag stays set. *)
Theorem stop_before_drain_blocks_join :
  forall (targets : list string) (thread_count : nat) (out : string)
         (sch1 sch2 : list event) (s s' : state),
    exec http sch1 (pool_start out targets thread_count) = Some s ->
    stop_event s = true ->
    total committed (workers s) < length (queue s) ->
    exec http sch2 s = Some s' ->
    coordinator s' = CJoin
    /\ statusLabel s' <> "Status: Stopped"
    /\ 0 < unfinished s'
    /\ checked_count s' < length targets
    /\ stop_event s' = true
    /\ (forall i, nth_error (workers s') i = Some WFlag ->
          exists s2, step http (EvWorker i) s' = Some s2
                     /\ nth_error (workers s2) i = Some WExit
                     /\ queue s2 = queue s').
Proof.
  intros targets thread_count out sch1 sch2 s s' H1 St Hc H2.
  pose proof (pool_inv_exec http targets out thread_count sch1 s H1) as Inv.
  pose proof (pool_inv_exec_from http targets sch2 s s' Inv H2) as (A & B & C & D & E & L).
  assert (J : stopped_short s').
  { apply (exec_invariant http (fun _ => true) stopped_short
             (fun e s0 s1 _ => stopped_short_step e s0 s1) sch2 s s' (forallb_any sch2));
      [split; assumption | exact H2]. }
  destruct J as [St' Hc'].
  assert (Hco : coordinator s' = CJoin).
  { destruct (coordinator s') eqn:Co; try reflexivity;
      (assert (unfinished s' = 0) by (apply D; discriminate)); lia. }
  repeat split; try lia; auto.
  - rewrite Hco in L. destruct L as [rest ->]. discriminate.
  - intros i Hi. unfold step. rewrite Hi. simpl. rewrite St'.
    eexists. split; [reflexivity|]. simpl. split; [|reflexivity].
    apply nth_error_set_nth_eq. eapply nth_error_in_range; eauto.
Qed.

End Cancellation.

(** Two targets, one worker, Stop clicked while the first probe is
    running: the worker finishes that probe, tests the flag and ends;
    after that no thread can move and the coordinator is still in
    [q.join()]. *)
Lemma stop_before_drain_blocks_join_witness :
  let http := fun _ : string => Response 200 512 in
  let start := pool_start "" ["example.com/a"; "example.com/b"] 1 in
  let before := [EvWorker 0; EvWorker 0; EvWorker 0; EvStop] in
  let after := [EvWorker 0; EvWorker 0; EvWorker 0; EvWorker 0; EvWorker 0] in
  exists s s',
    exec http before start = Some s
    /\ exec http after s = Some s'
    /\ coordinator s' = CJoin
    /\ statusLabel s' = "Checking: 1 / 2"
    /\ workers s' = [WExit]
    /\ queue s' = ["example.com/b"]
    /\ step http (EvWorker 0) s' = None
    /\ step http EvCoordinator s' = None
    /\ step http EvStop s' = None.
Proof.
  intros http start before after.
  destruct (exec http before start) as [s|] eqn:E1; [|vm_compute in E1; discriminate E1].
  destruct (exec http after s) as [s'|] eqn:E2;
    [|vm_compute in E1; injection E1 as <-; vm_compute in E2; discriminate E2].
  exists s, s'. split; [reflexivity|]. split; [exact E2|].
  assert (St : stop_event s = true)
    by (vm_compute in E1; injection E1 as <-; reflexivity).
  assert (Hc : total committed (workers s) < length (queue s))
    by (vm_compute in E1; injection E1 as <-; vm_compute; lia).
  split; [exact (proj1 (stop_before_drain_blocks_join http _ 1 "" before after s s' E1 St Hc E2))|].
  vm_compute in E1. injection E1 as <-. vm_compute in E2. injection E2 as <-.
  repeat split.
Defined.

Section Completion.

Variable http : string -> response.

Lemma drain_alone_no_stop (q : list string) : no_stop (drain_alone q) = true.
Proof. induction q as [|u q IH]; [reflexivity | exact IH]. Qed.

Lemma drain_alone_exec (q : list string) :
  forall rs c tot ws out lab pr,
  exists rs' c' lab' pr',
    exec http (drain_alone q)
      (mkState q (length q) rs c tot false true (WHead :: ws) CJoin out lab pr)
    = Some (mkState [] 0 rs' c' tot false true (WHead :: ws) CJoin out lab' pr').
Proof.
  induction q as [|u q IH]; intros rs c tot ws out lab pr.
  - exists rs, c, lab, pr. reflexivity.
  - unfold drain_alone. cbn [map concat one_round repeat app].
    cbn [exec step worker_step workers nth_error queue stop_event unfinished length
         set_workers set_nth results checked_count total_urls stopButton coordinator
         outputArea statusLabel probed].
    apply IH.
Qed.

(** With at least one worker and no click on Stop the pool can run to
    its end. *)
Lemma pool_can_complete (targets : list string) (n : nat) (out : string) :
  exists sch s,
    no_stop sch = true
    /\ exec http sch (pool_start out targets (S n)) = Some s
    /\ coordinator s = CDone
    /\ statusLabel s = "Status: Complete".
Proof.
  destruct (drain_alone_exec targets [] 0 (length targets) (repeat WHead n) out
              ("Checking: 0 / " +++ Str.of_nat (length targets)) [])
    as (rs' & c' & lab' & pr' & H).
  eexists (drain_alone targets
           ++ [EvCoordinator; EvCoordinator; EvCoordinator; EvCoordinator]), _.
  split; [|split].
  - unfold no_stop. rewrite forallb_app. fold (no_stop (drain_alone targets)).
    now rewrite drain_alone_no_stop.
  - rewrite exec_app. unfold pool_start. cbn [repeat]. rewrite H. reflexivity.
  - split; reflexivity.
Qed.

(** C2: in every state of a run over the targets the count of checked
    URLs, the probes taken and not yet counted, and the items left in the
    queue add up to the number of targets, so the count never exceeds
    it.  Once [q.join()] has returned the count equals the number of
    targets and the results are, up to order, one entry per target
    except the targets answered 400 or 404.  A probe goes into the
    counting step whatever the answer was, and that step adds one.  With
    at least one worker and no click on Stop the pool does complete. *)
Theorem pool_complete_counts :
  forall (targets : list string) (thread_count : nat) (out : string),
    (1 <= thread_count ->
       exists sch s, no_stop sch = true
                     /\ exec http sch (pool_start out targets thread_count) = Some s
                     /\ coordinator s = CDone)
    /\ forall (sch : list event) (s : state),
         exec http sch (pool_start out targets thread_count) = Some s ->
         checked_count s + total uncounted (workers s) + length (queue s) = length targets
         /\ checked_count s <= length targets
         /\ (coordinator s <> CJoin ->
               checked_count s = length targets
               /\ Permutation (results s) (flat_map (probe_entries http) targets)
               /\ length (results s) + length (filter (discarded http) targets)
                  = length targets)
         /\ (forall i url,
               nth_error (workers s) i = Some (WProbe url) ->
               exists s1 s2,
                 step http (EvWorker i) s = Some s1
                 /\ nth_error (workers s1) i = Some WFinally
                 /\ checked_count s1 = checked_count s
                 /\ step http (EvWorker i) s1 = Some s2
                 /\ nth_error (workers s2) i = Some WTaskDone
                 /\ checked_count s2 = S (checked_count s)).
Proof.
  intros targets thread_count out. split.
  - intros Hn. destruct thread_count as [|n]; [lia|].
    destruct (pool_can_complete targets n out) as (sch & s & H1 & H2 & H3 & _).
    now exists sch, s.
  - intros sch s Hex.
    pose proof (pool_inv_exec http targets out thread_count sch s Hex)
      as (A & B & C & D & E & L).
    split; [exact B|]. split; [lia|]. split.
    + intros Hco. specialize (D Hco).
      assert (Hq : queue s = []) by (destruct (queue s); [reflexivity | simpl in A; lia]).
      assert (Hh : total held (workers s) = 0) by lia.
      assert (Hu : total uncounted (workers s) <= total held (workers s)).
      { unfold total. clear. induction (workers s) as [|w ws IH]; simpl; [lia|].
        destruct w; simpl; lia. }
      assert (Hi : flat_map in_hand (workers s) = []).
      { clear - Hh. unfold total in Hh. induction (workers s) as [|w ws IH]; [reflexivity|].
        simpl in *. destruct w; simpl in *; try discriminate; apply IH; lia. }
      rewrite Hq, Hi in C. simpl in C. rewrite app_nil_r in C.
      rewrite Hq in B. simpl in B.
      split; [lia|]. split; [exact C|].
      rewrite (Permutation_length C). apply flat_map_probe_length.
    + intros i url Hi. pose proof (nth_error_in_range _ _ _ Hi) as Hlt.
      unfold step at 1. rewrite Hi. cbn [worker_step].
      eexists. eexists. split; [reflexivity|].
      cbn [set_workers workers checked_count].
      split; [now apply nth_error_set_nth_eq|]. split; [reflexivity|].
      unfold step. cbn [workers set_workers].
      rewrite nth_error_set_nth_eq by exact Hlt. cbn [worker_step].
      split; [reflexivity|].
      cbn [set_workers workers checked_count]. split; [|reflexivity].
      apply nth_error_set_nth_eq. now rewrite set_nth_length.
Qed.

End Completion.

(** Two workers, three targets (one answered 404, one unreachable), an
    interleaved schedule without Stop. *)
Lemma pool_complete_counts_witness :
  let http := fun u : string =>
    if String.eqb u "http://example.com/gone" then Response 404 9
    else if String.eqb u "http://down.example/" then Failure "refused"
    else Response 200 512 in
  let targets := ["http://example.com/b"; "example.com/gone"; "down.example/"] in
  let w0 := EvWorker 0 in
  let w1 := EvWorker 1 in
  let sch := [w0; w1; w0; w1; w0; w1; w1; w0; w1; w0; w1; w0; w1; w1; w1; w1; w1; w1; w1; w0;
              EvCoordinator; EvCoordinator; EvCoordinator] in
  exists s,
    exec http sch (pool_start "" targets 2) = Some s
    /\ checked_count s = 3
    /\ Permutation (results s) (flat_map (probe_entries http) targets)
    /\ length (results s) = 2
    /\ statusLabel s = "Status: Complete".
Proof.
  intros http targets w0 w1 sch.
  destruct (exec http sch (pool_start "" targets 2)) as [s|] eqn:E;
    [|vm_compute in E; discriminate E].
  exists s. split; [reflexivity|].
  assert (Hco : coordinator s <> CJoin)
    by (vm_compute in E; injection E as <-; discriminate).
  destruct (proj2 (pool_complete_counts http targets 2 "") sch s E)
    as (_ & _ & H & _).
  destruct (H Hco) as (Hc & Hp & _).
  split; [exact Hc|]. split; [exact Hp|].
  vm_compute in E. injection E as <-. split; reflexivity.
Defined.

(** ** The run as a whole *)

Section WholeRun.

Variable archive : string -> archive_reply.
Variable http : string -> response.

Lemma step_workers_length (e : event) (s s' : state) :
  step http e s = Some s' -> length (workers s') = length (workers s).
Proof.
  destruct e as [i| |]; simpl.
  - destruct (nth_error (workers s) i) as [w|]; [|discriminate].
    destruct w; simpl;
      [destruct (queue s) | destruct (stop_event s) | destruct (queue s) | | |
       destruct (unfinished s) | ];
      try discriminate; intros H; injection H as <-; simpl; apply set_nth_length.
  - unfold coordinator_step.
    destruct (coordinator s); [destruct (unfinished s)| |destruct (stop_event s)| |];
      try discriminate; intros H; injection H as <-; reflexivity.
  - unfold stop_click. destruct (stopButton s); [|discriminate].
    intros H; injection H as <-; reflexivity.
Qed.

Lemma exec_workers_length (sch : list event) (s s' : state) :
  exec http sch s = Some s' -> length (workers s') = length (workers s).
Proof.
  intros H.
  apply (exec_invariant http (fun _ => true)
           (fun x => length (workers x) = length (workers s))
           (fun e s0 s1 _ H0 H1 => eq_trans (step_workers_length e s0 s1 H1) H0)
           sch s s' (forallb_any sch) eq_refl H).
Qed.

Lemma Forall_set_nth {A : Type} (P : A -> Prop) (i : nat) (x : A) (l : list A) :
  P x -> Forall P l -> Forall P (set_nth i x l).
Proof.
  intros Hx H. revert i. induction H as [|y l Hy Hl IH]; intros [|i]; simpl;
    constructor; auto.
Qed.

Lemma idle_inv_step (out : string) (e : event) (s s' : state) :
  match e with EvStop => false | _ => true end = true ->
  idle_inv out s -> step http e s = Some s' -> idle_inv out s'.
Proof.
  intros He (Q & U & W & R & P & C & St & O) Hstep.
  destruct e as [i| |]; [| |discriminate]; simpl in Hstep.
  - destruct (nth_error (workers s) i) as [w|] eqn:Hw; [|discriminate].
    assert (Hidle : idle w).
    { rewrite Forall_forall in W. apply W. eapply nth_error_In; eauto. }
    destruct Hidle as [-> | ->]; simpl in Hstep; [|discriminate].
    rewrite Q in Hstep. injection Hstep as <-. unfold idle_inv; simpl.
    repeat split; auto. apply Forall_set_nth; [now right | exact W].
  - unfold coordinator_step in Hstep. destruct (coordinator s) eqn:Co.
    + rewrite U in Hstep. injection Hstep as <-. unfold idle_inv; simpl. repeat split; auto.
    + injection Hstep as <-. unfold idle_inv; simpl. rewrite R, O. repeat split; auto.
    + rewrite St in Hstep. injection Hstep as <-. unfold idle_inv; simpl. rewrite O.
      repeat split; auto.
    + injection Hstep as <-. unfold idle_inv; simpl. destruct O as [O1 O2].
      repeat split; auto.
    + discriminate.
Qed.

Lemma idle_inv_start (out : string) (thread_count : nat) :
  idle_inv out (pool_start out [] thread_count).
Proof.
  unfold idle_inv, pool_start. simpl. repeat split; auto.
  apply Forall_forall. intros w Hw. apply repeat_spec in Hw. now left.
Qed.

(** The label a finished pool leaves. *)
Lemma pool_end_label (out : string) (targets : list string) (thread_count : nat)
      (sch : list event) (s : state) :
  exec http sch (pool_start out targets thread_count) = Some s ->
  coordinator s = CDone ->
  (statusLabel s = "Status: Stopped" /\ stop_event s = true)
  \/ statusLabel s = "Status: Complete".
Proof.
  intros H Hco.
  pose proof (pool_inv_exec http targets out thread_count sch s H) as (_ & _ & _ & _ & _ & L).
  rewrite Hco in L. apply L.
Qed.

(** What [fetch_prepare] does, case by case. *)
Lemma fetch_prepare_cases (ui : ui_input) :
  let domain := Str.strip (domainField ui) in
  (domain = "" /\
   fetch_prepare archive ui
   = Returned (mkOutcome "Status: Error" "Error: Please enter a domain name." [] 0 [] [] 0))
  \/ (domain <> "" /\ Str.py_int (Str.strip (limitField ui)) = None /\
      fetch_prepare archive ui
      = Returned (mkOutcome "Status: Error" "Error: Invalid limit. Please enter a number."
                    [] 0 [] [] 0))
  \/ (exists limit,
        domain <> "" /\ Str.py_int (Str.strip (limitField ui)) = Some limit /\
        ((exists cause,
            archive (target_url domain limit) = FetchFailure cause /\
            fetch_prepare archive ui
            = Returned (mkOutcome "Status: Fetch Error" (fetch_error_message cause)
                          [target_url domain limit] 0 [] [] 0))
         \/ (exists out,
               archive (target_url domain limit) = Lines [] /\
               fetch_prepare archive ui
               = Returned (mkOutcome "Status: Error" out [target_url domain limit] 0 [] [] 0))
         \/ (exists lines out,
               archive (target_url domain limit) = Lines lines /\ lines <> [] /\
               fetch_prepare archive ui
               = Started (target_url domain limit)
                   (pool_start out (filter_urls lines) (threadsDropdown ui))))).
Proof.
  intros domain. unfold fetch_prepare. fold domain.
  destruct (String.eqb_spec domain "") as [-> | Hd]; [left; split; reflexivity|].
  right. destruct (Str.py_int (Str.strip (limitField ui))) as [limit|];
    [|left; repeat split; auto].
  right. exists limit. split; [exact Hd|]. split; [reflexivity|].
  destruct (archive (target_url domain limit)) as [[|l lines]|cause] eqn:Ar.
  - right. left. eexists. split; reflexivity.
  - right. right. eexists. eexists. split; [reflexivity|]. split; [discriminate|reflexivity].
  - left. exists cause. split; reflexivity.
Qed.

End WholeRun.





(** C6, as stated, fails: when the query to the archive index fails the
    run ends with the label [Status: Fetch Error], which is none of
    Complete, Stopped and Error. *)
Lemma fetch_failure_label_counterexample :
  let archive := fun _ : string => FetchFailure "connect timed out" in
  let http := fun _ : string => Response 200 512 in
  exists o,
    fetch_and_check_urls archive http (mkInput "example.com" "10000" 5 "") [] = Some o
    /\ end_label o = "Status: Fetch Error"
    /\ end_label o <> "Status: Error"
    /\ ~ In (end_label o) ["Status: Complete"; "Status: Stopped"; "Status: Error"].
Proof.
  intros archive http. eexists. split; [reflexivity|]. simpl.
  split; [reflexivity|]. split; [discriminate|].
  intros [H | [H | [H | []]]]; discriminate H.
Qed.

(** C9: the archive index returns lines and the filter removes them all.
    The pool is started over an empty queue with the selected number of
    workers; in every state of the run a worker has either not run yet or
    has ended, and a worker that runs ends in its first step.  The run
    can end, and whenever it ends without a click on Stop the label is
    [Status: Complete], nothing was probed, there is no result, and the
    output area holds what it held when the pool started, then the header
    and the separator with no row after them, then the closing line. *)
Theorem all_filtered_run_completes :
  forall (archive : string -> archive_reply) (http : string -> response)
         (ui : ui_input) (limit : Z) (lines : list string),
    Str.strip (domainField ui) <> "" ->
    Str.py_int (Str.strip (limitField ui)) = Some limit ->
    archive (target_url (Str.strip (domainField ui)) limit) = Lines lines ->
    lines <> [] ->
    filter_urls lines = [] ->
    exists out,
      fetch_prepare archive ui
      = Started (target_url (Str.strip (domainField ui)) limit)
          (pool_start out [] (threadsDropdown ui))
      /\ build_report [] = headers +++ separator
      /\ (forall sch s i w,
            no_stop sch = true ->
            exec http sch (pool_start out [] (threadsDropdown ui)) = Some s ->
            nth_error (workers s) i = Some w ->
            (w = WHead \/ w = WExit)
            /\ (w = WHead ->
                exists s1, step http (EvWorker i) s = Some s1
                           /\ nth_error (workers s1) i = Some WExit))
      /\ (exists o,
            fetch_and_check_urls archive http ui
              [EvCoordinator; EvCoordinator; EvCoordinator; EvCoordinator]
            = Some o)
      /\ (forall sch o,
            no_stop sch = true ->
            fetch_and_check_urls archive http ui sch = Some o ->
            end_label o = "Status: Complete"
            /\ end_output o
               = (out +++ headers +++ separator) +++ Str.nl +++ "[*] All checks complete."
            /\ end_workers o = threadsDropdown ui
            /\ end_probed o = [] /\ end_results o = [] /\ end_checked o = 0).
Proof.
  intros archive http ui limit lines Hd Hl Ha Hne Hf.
  destruct (fetch_prepare_cases archive ui)
    as [[E _] | [(_ & Hn & _) | (limit' & _ & Hl' & Hc)]]; [contradiction | congruence |].
  assert (limit' = limit) as -> by congruence.
  destruct Hc as [(cause & Hx & H) | [(out & Hx & H) | (lines' & out & Hx & _ & H)]];
    [congruence | rewrite Ha in Hx; injection Hx as ->; contradiction |].
  rewrite Ha in Hx. injection Hx as <-. rewrite Hf in H.
  assert (Hrep : build_report [] = headers +++ separator) by reflexivity.
  assert (Hinv : forall sch s, no_stop sch = true ->
            exec http sch (pool_start out [] (threadsDropdown ui)) = Some s ->
            idle_inv out s).
  { intros sch s Hns Hex.
    apply (exec_invariant http _ (idle_inv out) (idle_inv_step http out) sch _ s Hns
             (idle_inv_start out _) Hex). }
  exists out. split; [exact H|]. split; [exact Hrep|]. split; [|split].
  - intros sch s i w Hns Hex Hw.
    destruct (Hinv sch s Hns Hex) as (Q & _ & W & _).
    rewrite Forall_forall in W. split; [apply W; eapply nth_error_In; eauto|].
    intros ->. unfold step. rewrite Hw. simpl. rewrite Q.
    eexists. split; [reflexivity|]. simpl.
    apply nth_error_set_nth_eq. eapply nth_error_in_range; eauto.
  - unfold fetch_and_check_urls. rewrite H. eexists. reflexivity.
  - intros sch o Hns. unfold fetch_and_check_urls. rewrite H.
    destruct (exec http sch _) as [s|] eqn:Ex; [|discriminate].
    destruct (coordinator s) eqn:Co; try discriminate.
    intros E. injection E as <-. simpl.
    destruct (Hinv sch s Hns Ex) as (_ & _ & _ & R & P & C & _ & O).
    rewrite Co in O. destruct O as [O1 O2].
    rewrite (exec_workers_length http _ _ _ Ex). simpl. rewrite repeat_length.
    rewrite O1, Hrep. repeat split; auto.
Qed.

(** The archive returns two images; three workers are started, two of
    them get to run before the coordinator goes on. *)
Lemma all_filtered_run_completes_witness :
  let archive := fun _ : string => Lines ["http://example.com/a.png"; "example.com/LOGO.GIF"] in
  let http := fun _ : string => Response 200 512 in
  let ui := mkInput "example.com" "10000" 3 "" in
  let sch := [EvWorker 2; EvCoordinator; EvWorker 0; EvCoordinator; EvCoordinator;
              EvCoordinator] in
  exists o,
    fetch_and_check_urls archive http ui sch = Some o
    /\ end_label o = "Status: Complete"
    /\ end_workers o = 3 /\ end_probed o = [] /\ end_results o = [].
Proof.
  intros archive http ui sch.
  destruct (all_filtered_run_completes archive http ui 10000%Z
              ["http://example.com/a.png"; "example.com/LOGO.GIF"]
              ltac:(discriminate) eq_refl eq_refl ltac:(discriminate) eq_refl)
    as (out & _ & _ & _ & _ & H).
  destruct (fetch_and_check_urls archive http ui sch) as [o|] eqn:E;
    [|vm_compute in E; discriminate E].
  exists o. split; [reflexivity|].
  destruct (H sch o eq_refl E) as (H1 & _ & H3 & H4 & H5 & _).
  repeat split; assumption.
Defined.

(** * Further properties of the program *)

(** ** The sort *)

Section SortUnique.

Local Open Scope Z_scope.

Lemma filter_size_head (k : Z) (x : result) (l : list result) :
  filter (fun r => item1 r =? k) (x :: l)
  = if item1 x =? k then x :: filter (fun r => item1 r =? k) l
    else filter (fun r => item1 r =? k) l.
Proof. reflexivity. Qed.

Lemma sorted_head_max (x y : result) (l : list result) :
  StronglySorted size_ge (y :: l) -> In x (y :: l) -> item1 x <= item1 y.
Proof.
  intros Hs Hin. inversion Hs as [|? ? _ Hall]; subst.
  destruct Hin as [-> | Hin]; [lia|].
  rewrite Forall_forall in Hall. exact (Hall x Hin).
Qed.

Lemma in_of_filter_size (x : result) (l l' : list result) :
  filter (fun r => item1 r =? item1 x) (x :: l) = filter (fun r => item1 r =? item1 x) l' ->
  In x l'.
Proof.
  rewrite filter_size_head, Z.eqb_refl. intros H.
  assert (Hin : In x (filter (fun r => item1 r =? item1 x) l')) by (rewrite <- H; now left).
  now apply filter_In in Hin.
Qed.

(** Two lists sorted by descending size that agree, size by size, on
    the order of their entries are equal. *)
Lemma sorted_stable_eq (l1 : list result) :
  forall l2,
    StronglySorted size_ge l1 -> StronglySorted size_ge l2 ->
    (forall k, filter (fun r => item1 r =? k) l1 = filter (fun r => item1 r =? k) l2) ->
    l1 = l2.
Proof.
  induction l1 as [|x l1 IH]; intros l2 S1 S2 H.
  - destruct l2 as [|y l2]; [reflexivity|].
    specialize (H (item1 y)). rewrite filter_size_head, Z.eqb_refl in H. discriminate H.
  - destruct l2 as [|y l2].
    + specialize (H (item1 x)). rewrite filter_size_head, Z.eqb_refl in H. discriminate H.
    + assert (Hxy : item1 x <= item1 y).
      { apply (sorted_head_max x y l2 S2). apply (in_of_filter_size x l1). apply H. }
      assert (Hyx : item1 y <= item1 x).
      { apply (sorted_head_max y x l1 S1). apply (in_of_filter_size y l2).
        symmetry. apply H. }
      assert (Hk : item1 y = item1 x) by lia.
      pose proof (H (item1 x)) as Hx.
      rewrite !filter_size_head, Hk, Z.eqb_refl in Hx. injection Hx as -> Hx.
      f_equal. apply IH.
      * now inversion S1.
      * now inversion S2.
      * intros k. specialize (H k). rewrite !filter_size_head in H.
        destruct (item1 y =? k); [now injection H | exact H].
Qed.

Lemma Permutation_filter_size (k : Z) (l1 l2 : list result) :
  Permutation l1 l2 ->
  Permutation (filter (fun r => item1 r =? k) l1) (filter (fun r => item1 r =? k) l2).
Proof.
  induction 1 as [|x l1 l2 _ IH|x y l|l1 l2 l3 _ IH1 _ IH2].
  - constructor.
  - rewrite !filter_size_head. destruct (item1 x =? k); [now constructor | exact IH].
  - rewrite !filter_size_head.
    destruct (item1 x =? k), (item1 y =? k); try reflexivity. apply perm_swap.
  - etransitivity; eassumption.
Qed.

Lemma filter_size_short (k : Z) (l : list result) :
  NoDup (map item1 l) -> (length (filter (fun r => (item1 r =? k)%Z) l) <= 1)%nat.
Proof.
  induction l as [|x l IH]; intros Hnd; [simpl; lia|].
  inversion Hnd as [|? ? Hnin Hnd']; subst. specialize (IH Hnd').
  rewrite filter_size_head. destruct (item1 x =? k) eqn:E; [|exact IH].
  apply Z.eqb_eq in E.
  destruct (filter (fun r => item1 r =? k) l) as [|z t] eqn:F; [simpl; lia|].
  exfalso. apply Hnin.
  assert (Hz : In z (filter (fun r => item1 r =? k) l)) by (rewrite F; now left).
  apply filter_In in Hz. destruct Hz as [Hz Hk]. apply Z.eqb_eq in Hk.
  rewrite E, <- Hk. now apply in_map.
Qed.

Lemma short_perm_eq (l1 l2 : list result) :
  Permutation l1 l2 -> (length l1 <= 1)%nat -> l1 = l2.
Proof.
  intros Hp Hl. pose proof (Permutation_length Hp) as Hlen.
  destruct l1 as [|a [|b l1]]; simpl in Hl; try lia.
  - destruct l2; [reflexivity | discriminate Hlen].
  - destruct l2 as [|c [|d l2]]; try discriminate Hlen.
    now rewrite (Permutation_length_1 Hp).
Qed.

(** X1: [sorted_desc] is the only stable descending sort.  Any list
    that is sorted by descending size and that keeps, for every size, the
    entries of that size in the order they have in [l], is
    [sorted_desc l]; so the order of the report is fixed by the
    collection, and the insertion sort stands for any stable sort. *)
Theorem stable_sort_unique :
  forall l l' : list result,
    StronglySorted size_ge l' ->
    (forall k, filter (fun r => item1 r =? k) l' = filter (fun r => item1 r =? k) l) ->
    l' = sorted_desc l.
Proof.
  intros l l' Hs Hst. apply sorted_stable_eq.
  - exact Hs.
  - apply sorted_desc_sorted.
  - intros k. now rewrite Hst, sorted_desc_stable.
Qed.

Lemma stable_sort_unique_witness :
  sorted_desc [(200, 7, "a"); (301, 9, "b"); (500, 7, "c")]
  = [(301, 9, "b"); (200, 7, "a"); (500, 7, "c")].
Proof.
  symmetry. apply stable_sort_unique.
  - repeat constructor; unfold size_ge, item1; simpl; lia.
  - intros k. rewrite !filter_size_head. unfold item1. cbn [fst snd filter].
    destruct (Z.eqb_spec 9 k), (Z.eqb_spec 7 k); try reflexivity. lia.
Defined.

(** A collection in which no two entries have the same size is sorted to
    the same list whatever order it is in. *)
Lemma sorted_desc_order_free (l1 l2 : list result) :
  Permutation l1 l2 -> NoDup (map item1 l2) -> sorted_desc l1 = sorted_desc l2.
Proof.
  intros Hp Hnd. apply sorted_stable_eq; try apply sorted_desc_sorted.
  intros k. rewrite !sorted_desc_stable. apply short_perm_eq.
  - now apply Permutation_filter_size.
  - apply filter_size_short. eapply Permutation_NoDup; [|exact Hnd].
    apply Permutation_map. now symmetry.
Qed.

End SortUnique.

(** ** The pool: what every interleaving keeps *)

Section PoolFacts.

Variable http : string -> response.

(** What the bookkeeping gives once [q.join()] has returned. *)
Lemma pool_joined (targets : list string) (s : state) :
  pool_inv http targets s -> coordinator s <> CJoin ->
  queue s = [] /\ total held (workers s) = 0
  /\ checked_count s = length targets
  /\ Permutation (results s) (flat_map (probe_entries http) targets).
Proof.
  intros (A & B & C & D & _) Hco. specialize (D Hco).
  assert (Hq : queue s = []) by (destruct (queue s); [reflexivity | simpl in A; lia]).
  assert (Hh : total held (workers s) = 0) by lia.
  assert (Hu : total uncounted (workers s) <= total held (workers s)).
  { unfold total. clear. induction (workers s) as [|w ws IH]; simpl; [lia|].
    destruct w; simpl; lia. }
  assert (Hi : flat_map in_hand (workers s) = []).
  { clear - Hh. unfold total in Hh. induction (workers s) as [|w ws IH]; [reflexivity|].
    simpl in *. destruct w; simpl in *; try discriminate; apply IH; lia. }
  rewrite Hq, Hi in C. simpl in C. rewrite app_nil_r in C.
  rewrite Hq in B. simpl in B. repeat split; auto; lia.
Qed.

(** X2: when no two outcomes of the targets have the same size, the
    report is the same for every number of workers and every
    interleaving: it is the report of the outcomes taken in the order of
    the targets. *)
Theorem report_schedule_independent :
  forall (targets : list string) (thread_count : nat) (out : string)
         (sch : list event) (s : state),
    exec http sch (pool_start out targets thread_count) = Some s ->
    coordinator s <> CJoin ->
    NoDup (map item1 (flat_map (probe_entries http) targets)) ->
    build_report (results s) = build_report (flat_map (probe_entries http) targets).
Proof.
  intros targets thread_count out sch s Hex Hco Hnd.
  destruct (pool_joined targets s (pool_inv_exec http targets out thread_count sch s Hex) Hco)
    as (_ & _ & _ & Hp).
  unfold build_report. now rewrite (sorted_desc_order_free _ _ Hp Hnd).
Qed.

(** Every action uses up at least one unit of [steps_left]. *)
Lemma step_uses_up (e : event) (s s' : state) :
  step http e s = Some s' -> S (steps_left s') <= steps_left s.
Proof.
  unfold steps_left. intros Hstep. destruct e as [i| |]; simpl in Hstep.
  - destruct (nth_error (workers s) i) as [w|] eqn:Hw; [|discriminate].
    pose proof (fun w' => total_set_nth rank i w w' _ Hw) as Tr.
    destruct w; simpl in Hstep.
    + destruct (queue s) eqn:Q; injection Hstep as <-; simpl; rewrite ?Q;
        [specialize (Tr WExit) | specialize (Tr WFlag)]; simpl in *; lia.
    + destruct (stop_event s); injection Hstep as <-; simpl;
        [specialize (Tr WExit) | specialize (Tr WGet)]; simpl in *; lia.
    + destruct (queue s) as [|u q] eqn:Q; [discriminate|]. injection Hstep as <-. simpl.
      specialize (Tr (WProbe u)). simpl in *. lia.
    + injection Hstep as <-. simpl. specialize (Tr WFinally). simpl in *. lia.
    + injection Hstep as <-. simpl. specialize (Tr WTaskDone). simpl in *. lia.
    + destruct (unfinished s) eqn:U; injection Hstep as <-; simpl;
        [specialize (Tr WExit) | specialize (Tr WHead)]; simpl in *; lia.
    + discriminate.
  - unfold coordinator_step in Hstep.
    destruct (coordinator s); [destruct (unfinished s)| |destruct (stop_event s)| |];
      try discriminate; injection Hstep as <-; simpl; destruct (stopButton s); lia.
  - unfold stop_click in Hstep. destruct (stopButton s); [|discriminate].
    injection Hstep as <-. simpl. lia.
Qed.

Lemma exec_uses_up (sch : list event) :
  forall s s', exec http sch s = Some s' -> length sch + steps_left s' <= steps_left s.
Proof.
  induction sch as [|e sch IH]; intros s s' H; simpl in H.
  - injection H as <-. simpl. lia.
  - destruct (step http e s) as [s1|] eqn:E; [|discriminate].
    pose proof (step_uses_up e s s1 E). specialize (IH s1 s' H). simpl. lia.
Qed.

Lemma total_rank_start (n : nat) : total rank (repeat WHead n) = 2 * n.
Proof. unfold total. induction n as [|n IH]; simpl in *; lia. Qed.

(** X3: a run of the pool is finite.  Whatever the threads and the user
    do, after at most 6 actions per target, 2 per worker and 5 more (the
    four actions of the coordinator and one click on Stop) no thread can
    move any more: the pool has no livelock.  With at least one worker
    that is within 6 per target, 3 per worker and 4 more. *)
Theorem pool_run_is_finite :
  forall (targets : list string) (thread_count : nat) (out : string)
         (sch : list event) (s : state),
    exec http sch (pool_start out targets thread_count) = Some s ->
    length sch + steps_left s <= 6 * length targets + 2 * thread_count + 5
    /\ (1 <= thread_count ->
        length sch + steps_left s <= 6 * length targets + 3 * thread_count + 4).
Proof.
  intros targets thread_count out sch s H.
  pose proof (exec_uses_up sch _ _ H) as Hu.
  unfold steps_left at 2 in Hu. simpl in Hu. rewrite total_rank_start in Hu. lia.
Qed.

(** What one action does to the shared data: the queue loses at most
    its head, results and probed URLs are only appended to, the counters
    move one way, the stop flag is only set and the Stop button only
    disabled. *)
Lemma step_one_way (e : event) (s s' : state) :
  step http e s = Some s' ->
  (exists taken, queue s = taken ++ queue s')
  /\ (exists more, results s' = results s ++ more)
  /\ (exists more, probed s' = probed s ++ more)
  /\ checked_count s <= checked_count s'
  /\ unfinished s' <= unfinished s
  /\ (stop_event s = true -> stop_event s' = true)
  /\ (stopButton s = false -> stopButton s' = false)
  /\ total_urls s' = total_urls s.
Proof.
  intros Hstep.
  assert (Hnil : forall A (l : list A), exists more, l = l ++ more)
    by (intros A l; exists []; now rewrite app_nil_r).
  assert (Hq0 : forall l : list string, exists taken, l = taken ++ l)
    by (intros l; now exists []).
  destruct e as [i| |]; simpl in Hstep.
  - destruct (nth_error (workers s) i) as [w|]; [|discriminate].
    destruct w; simpl in Hstep.
    + destruct (queue s) eqn:Q; injection Hstep as <-; simpl; rewrite ?Q; repeat split; auto.
    + destruct (stop_event s) eqn:St; injection Hstep as <-; simpl; rewrite ?St;
        repeat split; auto.
    + destruct (queue s) as [|u q] eqn:Q; [discriminate|]. injection Hstep as <-. simpl.
      repeat split; auto. now exists [u].
    + injection Hstep as <-. simpl. repeat split; eauto.
    + injection Hstep as <-. simpl. repeat split; auto.
    + destruct (unfinished s) eqn:U; injection Hstep as <-; simpl; rewrite ?U;
        repeat split; auto.
    + discriminate.
  - unfold coordinator_step in Hstep.
    destruct (coordinator s); [destruct (unfinished s) eqn:U| |destruct (stop_event s) eqn:St| |];
      try discriminate; injection Hstep as <-; simpl; rewrite ?U, ?St; repeat split; auto.
  - unfold stop_click in Hstep. destruct (stopButton s) eqn:Sb; [|discriminate].
    injection Hstep as <-. simpl. repeat split; auto.
Qed.

(** X4: a run only moves forward.  Along any schedule the queue only
    loses items from its head (first in, first out), entries of the
    results and of the probe log are never changed or removed once
    written, the count of checked URLs and the count of unfinished tasks
    never go back, and the total shown in the progress text is fixed. *)
Theorem run_moves_one_way :
  forall (sch : list event) (s s' : state),
    exec http sch s = Some s' ->
    (exists taken, queue s = taken ++ queue s')
    /\ (exists more, results s' = results s ++ more)
    /\ (exists more, probed s' = probed s ++ more)
    /\ checked_count s <= checked_count s'
    /\ unfinished s' <= unfinished s
    /\ total_urls s' = total_urls s.
Proof.
  induction sch as [|e sch IH]; intros s s' H; simpl in H.
  - injection H as <-. repeat split; auto;
      try (now exists []); exists []; now rewrite app_nil_r.
  - destruct (step http e s) as [s1|] eqn:E; [|discriminate].
    destruct (step_one_way e s s1 E)
      as ((t1 & Q1) & (r1 & R1) & (p1 & P1) & C1 & U1 & _ & _ & T1).
    destruct (IH s1 s' H) as ((t2 & Q2) & (r2 & R2) & (p2 & P2) & C2 & U2 & T2).
    repeat split; try lia.
    + exists (t1 ++ t2). now rewrite <- app_assoc, <- Q2.
    + exists (r1 ++ r2). now rewrite R2, R1, app_assoc.
    + exists (p1 ++ p2). now rewrite P2, P1, app_assoc.
Qed.

(** A worker touches neither the stop flag, nor the Stop button, nor the
    coordinator, nor the output area. *)
Lemma worker_keeps_flags (i : nat) (s s1 : state) :
  step http (EvWorker i) s = Some s1 ->
  stop_event s1 = stop_event s /\ stopButton s1 = stopButton s
  /\ coordinator s1 = coordinator s /\ outputArea s1 = outputArea s.
Proof.
  simpl. destruct (nth_error (workers s) i) as [w|]; [|discriminate].
  destruct w; simpl;
    [destruct (queue s) | destruct (stop_event s) eqn:X | destruct (queue s) | | |
     destruct (unfinished s) | ];
    try discriminate; intros H; injection H as <-; simpl; rewrite ?X; auto.
Qed.

(** Clicks on Stop along a schedule, and what they do to the flag and the
    button. *)
Lemma stop_flag_facts :
  forall (sch : list event) (s s' : state),
    exec http sch s = Some s' ->
    stop_clicks sch <= (if stopButton s then 1 else 0)
    /\ (stop_event s = true -> stop_event s' = true)
    /\ (stopButton s = false -> stopButton s' = false)
    /\ (stop_event s = false -> (stop_event s' = true <-> stop_clicks sch = 1)).
Proof.
  unfold stop_clicks.
  induction sch as [|e sch IH]; intros s s' H; simpl in H.
  - injection H as <-. simpl. split; [destruct (stopButton s); lia|].
    split; [auto|]. split; [auto|]. intros E. split; [congruence | discriminate].
  - destruct (step http e s) as [s1|] eqn:E; [|discriminate].
    destruct (step_one_way e s s1 E) as (_ & _ & _ & _ & _ & St1 & Sb1 & _).
    destruct (IH s1 s' H) as (K & St & Sb & Iff).
    destruct e as [i| |]; cbn [filter length].
    + destruct (worker_keeps_flags i s s1 E) as (E1 & E2 & _).
      rewrite E1, E2 in *. split; [exact K|]. split; [exact St|]. split; [exact Sb | exact Iff].
    + assert (Hsame : stop_event s1 = stop_event s
                      /\ (stopButton s1 = true -> stopButton s = true)).
      { unfold step, coordinator_step in E.
        destruct (coordinator s); [destruct (unfinished s)| |destruct (stop_event s) eqn:X| |];
          try discriminate; injection E as <-; simpl; rewrite ?X; split; auto; discriminate. }
      destruct Hsame as [E1 E2]. rewrite E1 in *.
      split; [|split; [exact St|split; [|exact Iff]]].
      * destruct (stopButton s1) eqn:B1; [rewrite (E2 eq_refl); exact K|].
        destruct (stopButton s); lia.
      * intros B. apply Sb. destruct (stopButton s1); [|reflexivity].
        rewrite (E2 eq_refl) in B. discriminate B.
    + unfold step, stop_click in E. destruct (stopButton s) eqn:B; [|discriminate].
      injection E as <-. simpl in K, St, Sb, Iff.
      split; [lia|]. split; [intros _; now apply St|]. split; [discriminate|].
      intros _. split; [intros _; lia | intros _; now apply St].
Qed.

(** X5: Stop works once.  A schedule that the program can run contains
    at most one click on Stop (the button is disabled by the click and is
    not enabled again during the run); the flag, once set, stays set; and
    at the end of a schedule from the start of the pool the flag is set
    exactly when the schedule has a click. *)
Theorem stop_is_final :
  forall (sch : list event) (s s' : state),
    exec http sch s = Some s' ->
    stop_clicks sch <= (if stopButton s then 1 else 0)
    /\ (stop_event s = true -> stop_event s' = true)
    /\ (stopButton s = false -> stopButton s' = false)
    /\ (stop_event s = false -> (stop_event s' = true <-> stop_clicks sch = 1)).
Proof. exact stop_flag_facts. Qed.

Lemma total_pos_nth (f : wstate -> nat) (ws : list wstate) :
  0 < total f ws -> exists i w, nth_error ws i = Some w /\ 0 < f w.
Proof.
  unfold total. induction ws as [|w ws IH]; simpl; [lia|]. intros H.
  destruct (f w) eqn:F.
  - destruct (IH H) as (i & w' & Hi & Hw). now exists (S i), w'.
  - exists 0, w. split; [reflexivity | lia].
Qed.

Lemma worker_moves (i : nat) (w : wstate) (s : state) :
  nth_error (workers s) i = Some w -> w <> WExit -> (w = WGet -> queue s <> []) ->
  exists s', step http (EvWorker i) s = Some s'.
Proof.
  intros Hi Hne Hq. simpl. rewrite Hi.
  destruct w; simpl; try (eexists; reflexivity).
  - destruct (queue s); eexists; reflexivity.
  - destruct (stop_event s); eexists; reflexivity.
  - destruct (queue s); [now contradiction (Hq eq_refl) | eexists; reflexivity].
  - destruct (unfinished s); eexists; reflexivity.
  - contradiction.
Qed.

Lemma alive_step (targets : list string) (e : event) (s s' : state) :
  match e with EvStop => false | _ => true end = true ->
  pool_inv http targets s -> alive s -> step http e s = Some s' -> alive s'.
Proof.
  intros He (A & _) [St W] Hstep. unfold alive.
  destruct e as [i| |]; [| |discriminate]; simpl in Hstep.
  - destruct (nth_error (workers s) i) as [w|] eqn:Hw; [|discriminate].
    pose proof (total_nth_le held i w _ Hw) as Hle.
    destruct w; simpl in Hstep, Hle.
    + destruct (queue s) eqn:Q; injection Hstep as <-; simpl; rewrite ?Q;
        (split; [exact St|]); intros Hq; [contradiction|].
      apply Forall_set_nth; [discriminate | apply W; discriminate].
    + rewrite St in Hstep. injection Hstep as <-. simpl. split; [exact St|].
      intros Hq. apply Forall_set_nth; [discriminate | now apply W].
    + destruct (queue s) as [|u q] eqn:Q; [discriminate|]. injection Hstep as <-. simpl.
      split; [exact St|]. intros _. apply Forall_set_nth; [discriminate | apply W; discriminate].
    + injection Hstep as <-. simpl. split; [exact St|].
      intros Hq. apply Forall_set_nth; [discriminate | now apply W].
    + injection Hstep as <-. simpl. split; [exact St|].
      intros Hq. apply Forall_set_nth; [discriminate | now apply W].
    + destruct (unfinished s) eqn:U; [lia|]. injection Hstep as <-. simpl.
      split; [exact St|]. intros Hq. apply Forall_set_nth; [discriminate | now apply W].
    + discriminate.
  - unfold coordinator_step in Hstep.
    destruct (coordinator s); [destruct (unfinished s)| |rewrite St in Hstep| |];
      try discriminate; injection Hstep as <-; simpl; auto.
Qed.

Lemma can_move (targets : list string) (s : state) :
  pool_inv http targets s -> alive s -> workers s <> [] -> coordinator s <> CDone ->
  exists e s', match e with EvStop => false | _ => true end = true
               /\ step http e s = Some s'.
Proof.
  intros (A & _) [St W] Hws Hco.
  assert (Hc : forall s', step http EvCoordinator s = Some s' ->
               exists e s', match e with EvStop => false | _ => true end = true
                            /\ step http e s = Some s')
    by (intros s' H; exists EvCoordinator, s'; auto).
  destruct (coordinator s) eqn:Co.
  - destruct (unfinished s) as [|n] eqn:U.
    + eapply Hc. simpl. unfold coordinator_step. rewrite Co, U. reflexivity.
    + destruct (queue s) as [|u q] eqn:Q.
      * destruct (total_pos_nth held (workers s)) as (i & w & Hi & Hw); [simpl in A; lia|].
        destruct (worker_moves i w s Hi) as [s' Hs'].
        { intros ->. simpl in Hw. lia. }
        { intros ->. simpl in Hw. lia. }
        exists (EvWorker i), s'. auto.
      * destruct (workers s) as [|w ws] eqn:Ws; [contradiction|].
        assert (Hne : w <> WExit).
        { specialize (W ltac:(discriminate)). now inversion W. }
        destruct (worker_moves 0 w s) as [s' Hs']; [now rewrite Ws | exact Hne | |].
        { intros _. rewrite Q. discriminate. }
        exists (EvWorker 0), s'. auto.
  - eapply Hc. simpl. unfold coordinator_step. rewrite Co. reflexivity.
  - eapply Hc. simpl. unfold coordinator_step. rewrite Co, St. reflexivity.
  - eapply Hc. simpl. unfold coordinator_step. rewrite Co. reflexivity.
  - contradiction.
Qed.

Lemma complete_from (targets : list string) (n : nat) :
  forall s,
    pool_inv http targets s -> alive s -> workers s <> [] -> steps_left s <= n ->
    exists sch' s',
      no_stop sch' = true /\ exec http sch' s = Some s' /\ coordinator s' = CDone
      /\ stop_event s' = false /\ pool_inv http targets s'.
Proof.
  induction n as [|n IH]; intros s Inv Al Hws Hn.
  - destruct (coordinator s) eqn:Co;
      try (destruct (can_move targets s Inv Al Hws) as (e & s1 & _ & E);
           [rewrite Co; discriminate | pose proof (step_uses_up e s s1 E); lia]).
    exists [], s. destruct Al as [St _].
    split; [reflexivity|]. split; [reflexivity|]. split; [exact Co|].
    split; [exact St | exact Inv].
  - destruct (coordinator s) eqn:Co;
      try (destruct (can_move targets s Inv Al Hws) as (e & s1 & He & E);
           [rewrite Co; discriminate|];
           pose proof (step_uses_up e s s1 E) as Hu;
           destruct (IH s1 (pool_inv_step http targets e s s1 Inv E)
                       (alive_step targets e s s1 He Inv Al E)) as (sch' & s' & H1 & H2 & H3);
           [intros Hnil; apply Hws; apply length_zero_iff_nil;
            rewrite <- (step_workers_length http e s s1 E), Hnil; reflexivity
           | lia |];
           exists (e :: sch'), s'; split; [simpl; rewrite He; exact H1|];
           split; [simpl; rewrite E; exact H2 | exact H3]).
    exists [], s. destruct Al as [St _].
    split; [reflexivity|]. split; [reflexivity|]. split; [exact Co|].
    split; [exact St | exact Inv].
Qed.

Lemma alive_start (out : string) (targets : list string) (thread_count : nat) :
  alive (pool_start out targets thread_count).
Proof.
  split; [reflexivity|]. intros _. simpl. apply Forall_forall.
  intros w Hw. apply repeat_spec in Hw. subst. discriminate.
Qed.

(** X6: without a click on Stop the pool never gets stuck.  With at
    least one worker, whatever the interleaving has been so far, some
    thread can move as long as the coordinator has not returned, and the
    run can always be brought to its end, where the label is
    [Status: Complete]. *)
Theorem no_stop_run_completes :
  forall (targets : list string) (thread_count : nat) (out : string)
         (sch : list event) (s : state),
    1 <= thread_count ->
    no_stop sch = true ->
    exec http sch (pool_start out targets thread_count) = Some s ->
    (coordinator s <> CDone ->
       exists e s1, e <> EvStop /\ step http e s = Some s1)
    /\ exists sch' s',
         no_stop sch' = true
         /\ exec http (sch ++ sch') (pool_start out targets thread_count) = Some s'
         /\ coordinator s' = CDone
         /\ statusLabel s' = "Status: Complete"
         /\ length (sch ++ sch') <= 6 * length targets + 3 * thread_count + 4.
Proof.
  intros targets thread_count out sch s HT Hns Hex.
  pose proof (pool_inv_exec http targets out thread_count sch s Hex) as Inv.
  assert (Al : alive s).
  { apply (exec_invariant http _ (fun x => pool_inv http targets x /\ alive x)
             (fun e s0 s1 He '(conj I0 A0) E =>
                conj (pool_inv_step http targets e s0 s1 I0 E)
                     (alive_step targets e s0 s1 He I0 A0 E))
             sch _ s Hns (conj (pool_inv_start http targets out thread_count)
                               (alive_start out targets thread_count)) Hex). }
  assert (Hws : workers s <> []).
  { intros Hnil. pose proof (exec_workers_length http sch _ s Hex) as Hl.
    rewrite Hnil in Hl. simpl in Hl. rewrite repeat_length in Hl. lia. }
  split.
  - intros Hco. destruct (can_move targets s Inv Al Hws Hco) as (e & s1 & He & E).
    exists e, s1. split; [|exact E]. intros ->. discriminate He.
  - destruct (complete_from targets (steps_left s) s Inv Al Hws (le_n _))
      as (sch' & s' & H1 & H2 & H3 & H4 & H5).
    exists sch', s'. split; [exact H1|].
    assert (Hall : exec http (sch ++ sch') (pool_start out targets thread_count) = Some s')
      by (rewrite exec_app, Hex; exact H2).
    split; [exact Hall|]. split; [exact H3|]. split.
    + destruct H5 as (_ & _ & _ & _ & _ & L). rewrite H3 in L.
      destruct L as [_ [[_ L] | L]]; [congruence | exact L].
    + pose proof (exec_uses_up (sch ++ sch') _ _ Hall) as Hu.
      unfold steps_left at 2 in Hu. simpl in Hu. rewrite total_rank_start in Hu. lia.
Qed.

(** Worker 1 is blocked in [q.get()] on an empty queue. *)
Lemma blocked_step (e : event) (s s' : state) :
  queue s = [] /\ nth_error (workers s) 1 = Some WGet ->
  step http e s = Some s' ->
  queue s' = [] /\ nth_error (workers s') 1 = Some WGet.
Proof.
  intros [Q W] Hstep. destruct e as [i| |]; simpl in Hstep.
  - destruct (nth_error (workers s) i) as [w|] eqn:Hw; [|discriminate].
    assert (Hi : i <> 1 \/ w = WGet).
    { destruct (Nat.eq_dec i 1) as [->|]; [right; congruence | now left]. }
    destruct w; simpl in Hstep; rewrite ?Q in Hstep; try discriminate;
      (destruct Hi as [Hi | Hi]; [|discriminate Hi]);
      [ | destruct (stop_event s) | | | destruct (unfinished s)];
      injection Hstep as <-; cbn [queue workers set_workers]; rewrite ?Q;
      (split; [reflexivity|]); rewrite nth_error_set_nth_neq by auto; exact W.
  - unfold coordinator_step in Hstep.
    destruct (coordinator s); [destruct (unfinished s)| |destruct (stop_event s)| |];
      try discriminate; injection Hstep as <-; simpl; auto.
  - unfold stop_click in Hstep. destruct (stopButton s); [|discriminate].
    injection Hstep as <-. simpl. auto.
Qed.

(** X7: a worker can be left behind.  With two or more workers and at
    least one target there is an interleaving without Stop in which the
    run ends with [Status: Complete] while worker 1 has passed both loop
    tests and is blocked in [q.get()] on the emptied queue; nothing that
    happens afterwards lets that thread go on or end. *)
Theorem worker_left_blocked :
  forall (targets : list string) (n : nat) (out : string),
    targets <> [] ->
    exists sch s,
      no_stop sch = true
      /\ exec http sch (pool_start out targets (S (S n))) = Some s
      /\ coordinator s = CDone
      /\ statusLabel s = "Status: Complete"
      /\ checked_count s = length targets
      /\ forall sch' s',
           exec http sch' s = Some s' ->
           nth_error (workers s') 1 = Some WGet /\ step http (EvWorker 1) s' = None.
Proof.
  intros targets n out Hne. destruct targets as [|u q]; [contradiction|].
  destruct (drain_alone_exec http (u :: q) [] 0 (length (u :: q))
              (WGet :: repeat WHead n) out
              ("Checking: 0 / " +++ Str.of_nat (length (u :: q))) [])
    as (rs' & c' & lab' & pr' & H).
  exists ([EvWorker 1; EvWorker 1] ++ drain_alone (u :: q)
          ++ [EvCoordinator; EvCoordinator; EvCoordinator; EvCoordinator]).
  exists (mkState [] 0 rs' c' (length (u :: q)) false false
            (WHead :: WGet :: repeat WHead n) CDone
            ((out +++ build_report rs') +++ Str.nl +++ "[*] All checks complete.")
            "Status: Complete" pr').
  assert (Hrun : exec http
                   ([EvWorker 1; EvWorker 1] ++ drain_alone (u :: q)
                    ++ [EvCoordinator; EvCoordinator; EvCoordinator; EvCoordinator])
                   (pool_start out (u :: q) (S (S n)))
                 = Some (mkState [] 0 rs' c' (length (u :: q)) false false
                           (WHead :: WGet :: repeat WHead n) CDone
                           ((out +++ build_report rs') +++ Str.nl +++ "[*] All checks complete.")
                           "Status: Complete" pr')).
  { rewrite exec_app. unfold pool_start.
    cbn [repeat exec step worker_step nth_error set_workers set_nth
         queue unfinished results checked_count total_urls stop_event stopButton
         workers coordinator outputArea statusLabel probed].
    unfold set_workers.
    cbn [queue unfinished results checked_count total_urls stop_event stopButton
         workers coordinator outputArea statusLabel probed].
    rewrite exec_app, H. reflexivity. }
  split; [|split; [exact Hrun|]].
  - unfold no_stop. rewrite !forallb_app. fold (no_stop (drain_alone (u :: q))).
    now rewrite drain_alone_no_stop.
  - split; [reflexivity|]. split; [reflexivity|]. split.
    + pose proof (pool_inv_exec http (u :: q) out (S (S n)) _ _ Hrun) as Inv.
      destruct (pool_joined (u :: q) _ Inv) as (_ & _ & Hc & _); [discriminate|].
      exact Hc.
    + intros sch' s' Hex.
      assert (B : queue s' = [] /\ nth_error (workers s') 1 = Some WGet).
      { eapply (exec_invariant http (fun _ => true)
                  (fun x => queue x = [] /\ nth_error (workers x) 1 = Some WGet)
                  (fun e s0 s1 _ => blocked_step e s0 s1) sch');
          [apply forallb_any | | exact Hex]. split; reflexivity. }
      destruct B as [Q W]. split; [exact W|].
      unfold step. rewrite W. cbn [worker_step]. now rewrite Q.
Qed.

Lemma flat_map_single {A B : Type} (f : A -> B) (l : list A) :
  flat_map (fun x => [f x]) l = map f l.
Proof. induction l as [|x l IH]; simpl; [reflexivity | now rewrite IH]. Qed.

Lemma ledger_step (targets : list string) (e : event) (s s' : state) :
  Permutation (probed s ++ map normalize (flat_map in_hand (workers s) ++ queue s))
              (map normalize targets) ->
  step http e s = Some s' ->
  Permutation (probed s' ++ map normalize (flat_map in_hand (workers s') ++ queue s'))
              (map normalize targets).
Proof.
  intros L Hstep.
  assert (Same : forall hand' q', Permutation (hand' ++ q') (flat_map in_hand (workers s) ++ queue s) ->
            Permutation (probed s ++ map normalize (hand' ++ q')) (map normalize targets)).
  { intros hand' q' Hp. etransitivity; [|exact L].
    apply Permutation_app_head, Permutation_map, Hp. }
  destruct e as [i| |]; simpl in Hstep.
  - destruct (nth_error (workers s) i) as [w|] eqn:Hw; [|discriminate].
    pose proof (fun w' => in_hand_set_nth i w w' _ Hw) as Tp.
    destruct w; simpl in Hstep.
    + destruct (queue s) eqn:Q; injection Hstep as <-; simpl; rewrite ?Q;
        apply Same; [specialize (Tp WExit) | specialize (Tp WFlag)];
        simpl in Tp; rewrite !app_nil_r in Tp; now apply Permutation_app_tail.
    + destruct (stop_event s); injection Hstep as <-; simpl; apply Same;
        [specialize (Tp WExit) | specialize (Tp WGet)];
        simpl in Tp; rewrite !app_nil_r in Tp; now apply Permutation_app_tail.
    + destruct (queue s) as [|u q] eqn:Q; [discriminate|]. injection Hstep as <-. simpl.
      apply Same. specialize (Tp (WProbe u)). simpl in Tp. rewrite app_nil_r in Tp.
      rewrite Tp, <- app_assoc. reflexivity.
    + injection Hstep as <-. simpl. specialize (Tp WFinally). simpl in Tp.
      rewrite app_nil_r in Tp. etransitivity; [|exact L].
      rewrite <- app_assoc. apply Permutation_app_head.
      change ([normalize url] ++ map normalize (flat_map in_hand (set_nth i WFinally (workers s)) ++ queue s))
        with (map normalize (url :: flat_map in_hand (set_nth i WFinally (workers s)) ++ queue s)).
      apply Permutation_map. rewrite <- Tp, <- app_assoc. simpl. apply Permutation_middle.
    + injection Hstep as <-. simpl. apply Same. specialize (Tp WTaskDone). simpl in Tp.
      rewrite !app_nil_r in Tp. now apply Permutation_app_tail.
    + destruct (unfinished s); injection Hstep as <-; simpl; apply Same;
        [specialize (Tp WExit) | specialize (Tp WHead)];
        simpl in Tp; rewrite !app_nil_r in Tp; now apply Permutation_app_tail.
    + discriminate.
  - unfold coordinator_step in Hstep.
    destruct (coordinator s); [destruct (unfinished s)| |destruct (stop_event s)| |];
      try discriminate; injection Hstep as <-; simpl; exact L.
  - unfold stop_click in Hstep. destruct (stopButton s); [|discriminate].
    injection Hstep as <-. simpl. exact L.
Qed.

(** The URLs probed, in hand and queued are the normalised targets. *)
Lemma probe_ledger :
  forall (targets : list string) (thread_count : nat) (out : string)
         (sch : list event) (s : state),
    exec http sch (pool_start out targets thread_count) = Some s ->
    Permutation (probed s ++ map normalize (flat_map in_hand (workers s) ++ queue s))
                (map normalize targets)
    /\ length (probed s) <= length targets
    /\ (coordinator s <> CJoin -> Permutation (probed s) (map normalize targets)).
Proof.
  intros targets thread_count out sch s Hex.
  assert (L : Permutation (probed s ++ map normalize (flat_map in_hand (workers s) ++ queue s))
                (map normalize targets)).
  { eapply (exec_invariant http (fun _ => true)
              (fun x => Permutation
                          (probed x ++ map normalize (flat_map in_hand (workers x) ++ queue x))
                          (map normalize targets))
              (fun e s0 s1 _ => ledger_step targets e s0 s1) sch);
      [apply forallb_any | | exact Hex].
    simpl. now rewrite in_hand_repeat_head. }
  split; [exact L|]. split.
  - pose proof (Permutation_length L) as Hl. rewrite length_app, !length_map in Hl. lia.
  - intros Hco.
    pose proof (pool_inv_exec http targets out thread_count sch s Hex) as Inv.
    destruct (pool_joined targets s Inv Hco) as (Q & Hh & _).
    assert (Hi : flat_map in_hand (workers s) = []).
    { clear - Hh. unfold total in Hh. induction (workers s) as [|w ws IH]; [reflexivity|].
      simpl in *. destruct w; simpl in *; try discriminate; apply IH; lia. }
    rewrite Q, Hi in L. simpl in L. now rewrite app_nil_r in L.
Qed.

(** X8: every target is probed at most once, and exactly once when the
    pool has finished.  At any time the URLs probed so far, those in the
    hands of the workers and those still queued are, after
    normalisation, the targets, each as often as it was enqueued; once
    [q.join()] has returned the probed URLs are the normalised targets. *)
Theorem each_target_probed_once :
  forall (targets : list string) (thread_count : nat) (out : string)
         (sch : list event) (s : state),
    exec http sch (pool_start out targets thread_count) = Some s ->
    Permutation (probed s ++ map normalize (flat_map in_hand (workers s) ++ queue s))
                (map normalize targets)
    /\ length (probed s) <= length targets
    /\ (coordinator s <> CJoin -> Permutation (probed s) (map normalize targets)).
Proof. exact probe_ledger. Qed.

Lemma in_order_step (targets : list string) (e : event) (s s' : state) :
  (exists w done,
      workers s = [w] /\ targets = done ++ in_hand w ++ queue s
      /\ results s = flat_map (probe_entries http) done
      /\ probed s = map normalize done) ->
  step http e s = Some s' ->
  exists w done,
    workers s' = [w] /\ targets = done ++ in_hand w ++ queue s'
    /\ results s' = flat_map (probe_entries http) done
    /\ probed s' = map normalize done.
Proof.
  intros (w & done & W & T & R & P) Hstep. destruct e as [i| |]; simpl in Hstep.
  - rewrite W in Hstep. destruct i as [|i]; [|destruct i; discriminate].
    simpl in Hstep. destruct w; simpl in Hstep, T.
    + destruct (queue s) eqn:Q; injection Hstep as <-; simpl; rewrite W, ?Q; simpl;
        [exists WExit, done | exists WFlag, done]; auto.
    + destruct (stop_event s); injection Hstep as <-; simpl; rewrite W; simpl;
        [exists WExit, done | exists WGet, done]; auto.
    + destruct (queue s) as [|u q] eqn:Q; [discriminate|]. injection Hstep as <-. simpl.
      rewrite W. simpl. exists (WProbe u), done. auto.
    + injection Hstep as <-. simpl. rewrite W. simpl. exists WFinally, (done ++ [url]).
      rewrite flat_map_app, map_app, <- app_assoc, R, P. simpl. rewrite app_nil_r. auto.
    + injection Hstep as <-. simpl. rewrite W. simpl. exists WTaskDone, done. auto.
    + destruct (unfinished s); injection Hstep as <-; simpl; rewrite W; simpl;
        [exists WExit, done | exists WHead, done]; auto.
    + discriminate.
  - unfold coordinator_step in Hstep.
    destruct (coordinator s); [destruct (unfinished s)| |destruct (stop_event s)| |];
      try discriminate; injection Hstep as <-; simpl; exists w, done; auto.
  - unfold stop_click in Hstep. destruct (stopButton s); [|discriminate].
    injection Hstep as <-. simpl. exists w, done; auto.
Qed.

(** X9: with one worker the targets are probed in the order of the
    list.  At any time the results are the outcomes of an initial part
    of the targets, in that order, and the rest is in the hand of the
    worker or in the queue; once [q.join()] has returned the results are
    the outcomes of all targets in the order of the list, so the report
    is the same in every run. *)
Theorem single_worker_in_order :
  forall (targets : list string) (out : string) (sch : list event) (s : state),
    exec http sch (pool_start out targets 1) = Some s ->
    (exists done,
        targets = done ++ flat_map in_hand (workers s) ++ queue s
        /\ results s = flat_map (probe_entries http) done
        /\ probed s = map normalize done)
    /\ (coordinator s <> CJoin ->
         results s = flat_map (probe_entries http) targets
         /\ probed s = map normalize targets).
Proof.
  intros targets out sch s Hex.
  assert (O : exists w done,
             workers s = [w] /\ targets = done ++ in_hand w ++ queue s
             /\ results s = flat_map (probe_entries http) done
             /\ probed s = map normalize done).
  { eapply (exec_invariant http (fun _ => true) _
              (fun e s0 s1 _ => in_order_step targets e s0 s1) sch);
      [apply forallb_any | | exact Hex].
    exists WHead, []. simpl. auto. }
  destruct O as (w & done & W & T & R & P). split.
  - exists done. rewrite W. simpl. rewrite app_nil_r. auto.
  - intros Hco.
    pose proof (pool_inv_exec http targets out 1 sch s Hex) as Inv.
    destruct (pool_joined targets s Inv Hco) as (Q & Hh & _).
    rewrite W in Hh. unfold total in Hh. simpl in Hh.
    assert (Hw : in_hand w = []) by (destruct w; simpl in *; try reflexivity; lia).
    rewrite Hw, Q in T. simpl in T. rewrite app_nil_r in T. subst done. auto.
Qed.

Lemma turned_away_step (e : event) (s s' : state) :
  (stop_event s = true /\ coordinator s = CJoin /\ unfinished s = length (queue s)
   /\ queue s <> [] /\ Forall turned_away (workers s)) ->
  step http e s = Some s' ->
  (stop_event s' = true /\ coordinator s' = CJoin /\ unfinished s' = length (queue s')
   /\ queue s' <> [] /\ Forall turned_away (workers s'))
  /\ queue s' = queue s /\ results s' = results s /\ probed s' = probed s
  /\ checked_count s' = checked_count s.
Proof.
  intros (St & Co & U & Q & W) Hstep. destruct e as [i| |]; simpl in Hstep.
  - destruct (nth_error (workers s) i) as [w|] eqn:Hw; [|discriminate].
    assert (Hta : turned_away w).
    { rewrite Forall_forall in W. apply W. eapply nth_error_In; eauto. }
    destruct Hta as [-> | [-> | ->]]; simpl in Hstep.
    + destruct (queue s) as [|u q] eqn:Qe; [contradiction|]. injection Hstep as <-. simpl.
      rewrite Qe. repeat split; auto. apply Forall_set_nth; auto. unfold turned_away; auto.
    + rewrite St in Hstep. injection Hstep as <-. simpl.
      repeat split; auto. apply Forall_set_nth; auto. unfold turned_away; auto.
    + discriminate.
  - unfold coordinator_step in Hstep. rewrite Co in Hstep.
    destruct (queue s) as [|u q] eqn:Qe; [contradiction|].
    rewrite U in Hstep. discriminate.
  - unfold stop_click in Hstep. destruct (stopButton s); [|discriminate].
    injection Hstep as <-. simpl. repeat split; auto.
Qed.

(** X10: Stop clicked too early hangs the run.  When the flag is already
    set as the workers are started (a click while the archive index is
    being queried) and at least one URL is left after filtering, no URL
    is ever taken from the queue or probed, every worker that runs ends
    at the test of the flag, and [q.join()] never returns: the label
    never becomes [Stopped]. *)
Theorem stop_during_fetch_hangs :
  forall (targets : list string) (thread_count : nat) (out : string)
         (sch : list event) (s : state),
    targets <> [] ->
    exec http sch (pool_start_after_stop out targets thread_count) = Some s ->
    coordinator s = CJoin
    /\ queue s = targets /\ results s = [] /\ probed s = [] /\ checked_count s = 0
    /\ statusLabel s = "Checking: 0 / " +++ Str.of_nat (length targets)
    /\ step http EvCoordinator s = None.
Proof.
  intros targets thread_count out sch s Hne Hex.
  set (P := fun x : state =>
              (stop_event x = true /\ coordinator x = CJoin
               /\ unfinished x = length (queue x)
               /\ queue x <> [] /\ Forall turned_away (workers x))
              /\ queue x = targets /\ results x = [] /\ probed x = []
              /\ checked_count x = 0
              /\ statusLabel x = "Checking: 0 / " +++ Str.of_nat (length targets)).
  assert (Hstep : forall e s0 s1, (fun _ : event => true) e = true -> P s0 ->
                    step http e s0 = Some s1 -> P s1).
  { intros e s0 s1 _ (I0 & Hq & Hr & Hp & Hc & Hl) E.
    destruct (turned_away_step e s0 s1 I0 E) as (I1 & Q1 & R1 & P1 & C1).
    split; [exact I1|]. rewrite Q1, R1, P1, C1. repeat split; auto.
    destruct e as [i| |]; simpl in E.
    - destruct (nth_error (workers s0) i) as [w|] eqn:Hw; [|discriminate].
      destruct I0 as (St & _ & _ & _ & W).
      assert (Hta : turned_away w).
      { rewrite Forall_forall in W. apply W. eapply nth_error_In; eauto. }
      destruct Hta as [-> | [-> | ->]]; simpl in E.
      + destruct (queue s0); injection E as <-; exact Hl.
      + rewrite St in E. injection E as <-. exact Hl.
      + discriminate.
    - destruct I0 as (_ & Co & U & Q & _). unfold coordinator_step in E. rewrite Co, U in E.
      destruct (queue s0); [contradiction | discriminate].
    - unfold stop_click in E. destruct (stopButton s0); [|discriminate].
      injection E as <-. exact Hl. }
  assert (I : P s).
  { apply (exec_invariant http (fun _ => true) P Hstep sch
             (pool_start_after_stop out targets thread_count) s (forallb_any sch));
      [|exact Hex].
    unfold P. simpl. repeat split; auto.
    apply Forall_forall. intros w Hw. apply repeat_spec in Hw. now left. }
  destruct I as ((St & Co & U & Q & W) & Hq & Hr & Hp & Hc & Hl).
  repeat split; auto.
  simpl. unfold coordinator_step. rewrite Co, U.
  destruct (queue s); [contradiction | reflexivity].
Qed.

End PoolFacts.

(** Two workers, two targets of different sizes, an interleaving in
    which the second target is answered first. *)
Lemma report_schedule_independent_witness :
  let http := fun u : string =>
    if String.eqb u "http://example.com/a" then Response 200 100 else Response 200 500 in
  let targets := ["example.com/a"; "example.com/b"] in
  let w0 := EvWorker 0 in
  let w1 := EvWorker 1 in
  let sch := [w0; w1; w0; w1; w0; w1; w1; w1; w1; w0; w0; w0; EvCoordinator] in
  exists s,
    exec http sch (pool_start "" targets 2) = Some s
    /\ map item1 (results s) = [500; 100]%Z
    /\ build_report (results s) = build_report (flat_map (probe_entries http) targets).
Proof.
  intros http targets w0 w1 sch.
  destruct (exec http sch (pool_start "" targets 2)) as [s|] eqn:E;
    [|vm_compute in E; discriminate E].
  exists s. split; [reflexivity|]. split.
  - vm_compute in E. injection E as <-. reflexivity.
  - apply (report_schedule_independent http targets 2 "" sch s E).
    + vm_compute in E. injection E as <-. discriminate.
    + vm_compute. repeat constructor; simpl; intuition discriminate.
Defined.

Lemma pool_run_is_finite_witness :
  let http := fun _ : string => Response 200 512 in
  let sch := [EvWorker 0; EvStop; EvWorker 0] in
  exists s,
    exec http sch (pool_start "" ["a"; "b"] 1) = Some s
    /\ length sch + steps_left s <= 6 * 2 + 2 * 1 + 5
    /\ length sch + steps_left s <= 6 * 2 + 3 * 1 + 4.
Proof.
  intros http sch.
  destruct (exec http sch (pool_start "" ["a"; "b"] 1)) as [s|] eqn:E;
    [|vm_compute in E; discriminate E].
  exists s. split; [reflexivity|].
  destruct (pool_run_is_finite http ["a"; "b"] 1 "" sch s E) as [H1 H2].
  split; [exact H1 | apply H2; apply le_n].
Defined.

Lemma run_moves_one_way_witness :
  let http := fun _ : string => Response 200 512 in
  let start := pool_start "" ["a"; "b"] 1 in
  exists s,
    exec http [EvWorker 0; EvWorker 0; EvWorker 0; EvWorker 0] start = Some s
    /\ (exists taken, queue start = taken ++ queue s)
    /\ (exists more, results s = results start ++ more).
Proof.
  intros http start.
  destruct (exec http [EvWorker 0; EvWorker 0; EvWorker 0; EvWorker 0] start) as [s|] eqn:E;
    [|vm_compute in E; discriminate E].
  exists s. split; [reflexivity|].
  destruct (run_moves_one_way http _ start s E) as (H1 & H2 & _).
  split; assumption.
Defined.

Lemma stop_is_final_witness :
  let http := fun _ : string => Response 200 512 in
  let start := pool_start "" ["a"; "b"] 1 in
  exists s,
    exec http [EvWorker 0; EvStop; EvWorker 0] start = Some s
    /\ stop_event s = true
    /\ step http EvStop s = None.
Proof.
  intros http start.
  destruct (exec http [EvWorker 0; EvStop; EvWorker 0] start) as [s|] eqn:E;
    [|vm_compute in E; discriminate E].
  exists s. split; [reflexivity|].
  destruct (stop_is_final http _ start s E) as (_ & _ & _ & H).
  split; [apply (H eq_refl); reflexivity|].
  vm_compute in E. injection E as <-. reflexivity.
Defined.

Lemma no_stop_run_completes_witness :
  let http := fun _ : string => Response 200 512 in
  let sch := [EvWorker 1; EvWorker 0; EvWorker 1; EvWorker 1] in
  exists s sch' s',
    exec http sch (pool_start "" ["a"; "b"] 2) = Some s
    /\ no_stop sch' = true
    /\ exec http (sch ++ sch') (pool_start "" ["a"; "b"] 2) = Some s'
    /\ coordinator s' = CDone
    /\ statusLabel s' = "Status: Complete".
Proof.
  intros http sch.
  destruct (exec http sch (pool_start "" ["a"; "b"] 2)) as [s|] eqn:E;
    [|vm_compute in E; discriminate E].
  destruct (no_stop_run_completes http ["a"; "b"] 2 "" sch s ltac:(lia) eq_refl E)
    as (_ & sch' & s' & H1 & H2 & H3 & H4 & _).
  exists s, sch', s'. repeat split; assumption.
Defined.

Lemma worker_left_blocked_witness :
  let http := fun _ : string => Response 200 512 in
  exists sch s,
    no_stop sch = true
    /\ exec http sch (pool_start "" ["example.com/a"] 2) = Some s
    /\ coordinator s = CDone
    /\ nth_error (workers s) 1 = Some WGet.
Proof.
  intros http.
  destruct (worker_left_blocked http ["example.com/a"] 0 "" ltac:(discriminate))
    as (sch & s & H1 & H2 & H3 & _ & _ & H6).
  exists sch, s. repeat split; try assumption.
  exact (proj1 (H6 [] s eq_refl)).
Defined.

Lemma each_target_probed_once_witness :
  let http := fun _ : string => Response 200 512 in
  let w0 := EvWorker 0 in
  let w1 := EvWorker 1 in
  let sch := [w0; w1; w0; w1; w0; w1; w1; w1; w1; w0; w0; w0; EvCoordinator] in
  exists s,
    exec http sch (pool_start "" ["example.com/a"; "https://example.com/b"] 2) = Some s
    /\ Permutation (probed s) ["http://example.com/a"; "https://example.com/b"].
Proof.
  intros http w0 w1 sch.
  destruct (exec http sch (pool_start "" ["example.com/a"; "https://example.com/b"] 2))
    as [s|] eqn:E; [|vm_compute in E; discriminate E].
  exists s. split; [reflexivity|].
  apply (proj2 (proj2 (each_target_probed_once http _ 2 "" sch s E))).
  vm_compute in E. injection E as <-. discriminate.
Defined.

Lemma single_worker_in_order_witness :
  let http := fun u : string =>
    if String.eqb u "http://example.com/a" then Response 200 100 else Response 200 500 in
  let targets := ["example.com/a"; "example.com/b"] in
  let sch := repeat (EvWorker 0) 12 ++ [EvCoordinator] in
  exists s,
    exec http sch (pool_start "" targets 1) = Some s
    /\ results s = [(200, 100, "http://example.com/a"); (200, 500, "http://example.com/b")]%Z.
Proof.
  intros http targets sch.
  destruct (exec http sch (pool_start "" targets 1)) as [s|] eqn:E;
    [|vm_compute in E; discriminate E].
  exists s. split; [reflexivity|].
  apply (proj2 (single_worker_in_order http targets "" sch s E)).
  vm_compute in E. injection E as <-. discriminate.
Defined.

Lemma stop_during_fetch_hangs_witness :
  let http := fun _ : string => Response 200 512 in
  let sch := [EvWorker 0; EvWorker 1; EvWorker 0; EvWorker 1] in
  exists s,
    exec http sch (pool_start_after_stop "" ["example.com/a"] 2) = Some s
    /\ coordinator s = CJoin /\ probed s = []
    /\ workers s = [WExit; WExit]
    /\ step http EvCoordinator s = None.
Proof.
  intros http sch.
  destruct (exec http sch (pool_start_after_stop "" ["example.com/a"] 2)) as [s|] eqn:E;
    [|vm_compute in E; discriminate E].
  exists s. split; [reflexivity|].
  destruct (stop_during_fetch_hangs http ["example.com/a"] 2 "" sch s ltac:(discriminate) E)
    as (H1 & _ & _ & H4 & _ & _ & H7).
  split; [exact H1|]. split; [exact H4|]. split; [|exact H7].
  vm_compute in E. injection E as <-. reflexivity.
Defined.

(** ** The run as a whole: further properties *)

Section RunFacts.

Variable archive : string -> archive_reply.
Variable http : string -> response.

(** With a domain, a limit and a non-empty answer of the archive index
    the pool is started over the filtered lines, below the four progress
    lines. *)
Lemma fetch_prepare_started (ui : ui_input) (limit : Z) (lines : list string) :
  Str.strip (domainField ui) <> "" ->
  Str.py_int (Str.strip (limitField ui)) = Some limit ->
  archive (target_url (Str.strip (domainField ui)) limit) = Lines lines ->
  lines <> [] ->
  fetch_prepare archive ui
  = Started (target_url (Str.strip (domainField ui)) limit)
      (pool_start
         (progress_lines (Str.strip (domainField ui))
            (target_url (Str.strip (domainField ui)) limit)
            (length lines) (length (filter_urls lines)) (threadsDropdown ui))
         (filter_urls lines) (threadsDropdown ui)).
Proof.
  intros Hd Hl Ha Hne. unfold fetch_prepare.
  destruct (String.eqb_spec (Str.strip (domainField ui)) "") as [E|_]; [contradiction|].
  rewrite Hl, Ha. destruct lines as [|l lines]; [contradiction | reflexivity].
Qed.


(** Once the label of the end is set no thread changes it. *)
Lemma label_frozen_step (targets : list string) (e : event) (s s1 : state) :
  pool_inv http targets s ->
  coordinator s = CFinally \/ coordinator s = CDone ->
  step http e s = Some s1 ->
  statusLabel s1 = statusLabel s
  /\ (coordinator s1 = CFinally \/ coordinator s1 = CDone).
Proof.
  intros (A & _ & _ & D & _) Hco Hstep.
  assert (U : unfinished s = 0) by (apply D; destruct Hco as [-> | ->]; discriminate).
  destruct e as [i| |].
  - destruct (worker_keeps_flags http i s s1 Hstep) as (_ & _ & E3 & _).
    rewrite E3. split; [|exact Hco]. simpl in Hstep.
    destruct (nth_error (workers s) i) as [w|] eqn:Hw; [|discriminate].
    pose proof (total_nth_le held i w _ Hw) as Hle.
    destruct w; simpl in Hstep, Hle; try lia;
      [destruct (queue s) | destruct (stop_event s) | destruct (queue s) | ];
      try discriminate; injection Hstep as <-; reflexivity.
  - simpl in Hstep. unfold coordinator_step in Hstep.
    destruct Hco as [Co | Co]; rewrite Co in Hstep; [|discriminate].
    injection Hstep as <-. simpl. auto.
  - simpl in Hstep. unfold stop_click in Hstep. destruct (stopButton s); [|discriminate].
    injection Hstep as <-. simpl. auto.
Qed.

Lemma label_frozen (targets : list string) (sch : list event) :
  forall s s',
    pool_inv http targets s ->
    coordinator s = CFinally \/ coordinator s = CDone ->
    exec http sch s = Some s' ->
    statusLabel s' = statusLabel s.
Proof.
  induction sch as [|e sch IH]; intros s s' Inv Hco H; simpl in H.
  - now injection H as <-.
  - destruct (step http e s) as [s1|] eqn:E; [|discriminate].
    destruct (label_frozen_step targets e s s1 Inv Hco E) as [L1 C1].
    rewrite <- L1. exact (IH s1 s' (pool_inv_step http targets e s s1 Inv E) C1 H).
Qed.

Lemma stop_before_read_0 (sch : list event) : stop_before_read 0 sch = false.
Proof. destruct sch; reflexivity. Qed.

(** The label of the end is decided by the flag at the time it is read. *)
Lemma label_by_read (targets : list string) (sch : list event) :
  forall s s',
    pool_inv http targets s ->
    exec http sch s = Some s' ->
    coordinator s' = CFinally \/ coordinator s' = CDone ->
    1 <= pred (crank (coordinator s)) ->
    statusLabel s'
    = if stop_event s || stop_before_read (pred (crank (coordinator s))) sch
      then "Status: Stopped" else "Status: Complete".
Proof.
  induction sch as [|e sch IH]; intros s s' Inv H Hco' Hr; simpl in H.
  - injection H as <-. destruct Hco' as [Co | Co]; rewrite Co in Hr; simpl in Hr; lia.
  - destruct (step http e s) as [s1|] eqn:E; [|discriminate].
    pose proof (pool_inv_step http targets e s s1 Inv E) as Inv1.
    destruct e as [i| |].
    + destruct (worker_keeps_flags http i s s1 E) as (E1 & _ & E3 & _).
      specialize (IH s1 s' Inv1 H Hco'). rewrite E1, E3 in IH. rewrite (IH Hr).
      destruct (pred (crank (coordinator s))); [lia | reflexivity].
    + simpl in E. unfold coordinator_step in E. destruct (coordinator s) eqn:Co;
        simpl in Hr; try lia.
      * destruct (unfinished s); [|discriminate]. injection E as <-.
        exact (IH _ s' Inv1 H Hco' ltac:(simpl; lia)).
      * injection E as <-. exact (IH _ s' Inv1 H Hco' ltac:(simpl; lia)).
      * cbn [crank pred stop_before_read]. rewrite stop_before_read_0, orb_false_r.
        destruct (stop_event s) eqn:St; injection E as <-;
          rewrite (label_frozen targets sch _ s' Inv1 (or_introl eq_refl) H); reflexivity.
    + simpl in E. unfold stop_click in E. destruct (stopButton s); [|discriminate].
      injection E as <-.
      specialize (IH _ s' Inv1 H Hco' Hr). cbn [stop_event coordinator] in IH.
      rewrite IH. cbn [orb].
      destruct (pred (crank (coordinator s))); [lia|]. cbn [stop_before_read].
      now rewrite orb_true_r.
Qed.

Lemma stop_before_read_clicks (n : nat) (sch : list event) :
  stop_before_read n sch = true -> 1 <= stop_clicks sch.
Proof.
  unfold stop_clicks. revert n. induction sch as [|e sch IH]; intros n H.
  - destruct n; discriminate H.
  - destruct e as [i| |]; cbn [filter length].
    + destruct n as [|n]; [discriminate H|]. exact (IH (S n) H).
    + destruct n as [|n]; [discriminate H|]. exact (IH n H).
    + lia.
Qed.

(** X11: a run that ends has checked every URL, also when it was
    stopped.  Whenever a run over a non-empty answer of the archive index
    ends, under any schedule, the count of checked URLs is the number of
    filtered URLs, each of them was probed once, the results are their
    outcomes, and the selected number of workers was started.  The label
    is [Stopped] exactly when Stop was clicked before the coordinator
    read the flag (line 314) and [Complete] otherwise: a click after
    that, while the button is still enabled, leaves [Complete].  So
    [Stopped] needs a click, and without a click the label is
    [Complete]. *)
Theorem ended_run_checked_all :
  forall (ui : ui_input) (limit : Z) (lines : list string) (sch : list event) (o : outcome),
    Str.strip (domainField ui) <> "" ->
    Str.py_int (Str.strip (limitField ui)) = Some limit ->
    archive (target_url (Str.strip (domainField ui)) limit) = Lines lines ->
    lines <> [] ->
    fetch_and_check_urls archive http ui sch = Some o ->
    end_checked o = length (filter_urls lines)
    /\ Permutation (end_probed o) (map normalize (filter_urls lines))
    /\ Permutation (end_results o) (flat_map (probe_entries http) (filter_urls lines))
    /\ end_workers o = threadsDropdown ui
    /\ end_label o
       = (if stop_before_read 3 sch then "Status: Stopped" else "Status: Complete")
    /\ (end_label o = "Status: Stopped" -> stop_clicks sch = 1)
    /\ (stop_clicks sch = 0 -> end_label o = "Status: Complete").
Proof.
  intros ui limit lines sch o Hd Hl Ha Hne. unfold fetch_and_check_urls.
  rewrite (fetch_prepare_started ui limit lines Hd Hl Ha Hne).
  destruct (exec http sch _) as [s|] eqn:Ex; [|discriminate].
  destruct (coordinator s) eqn:Co; try discriminate.
  intros E. injection E as <-. simpl.
  pose proof (pool_inv_exec http _ _ _ _ _ Ex) as Inv.
  destruct (pool_joined http _ s Inv) as (_ & _ & Hc & Hr); [rewrite Co; discriminate|].
  destruct (probe_ledger http _ _ _ _ _ Ex) as (_ & _ & Hp).
  destruct (stop_flag_facts http _ _ _ Ex) as (K & _).
  simpl in K.
  pose proof (label_by_read (filter_urls lines) sch _ s
                (pool_inv_start http _ _ _) Ex (or_intror Co) ltac:(simpl; lia)) as L.
  cbn [stop_event pool_start coordinator crank pred orb] in L.
  split; [exact Hc|]. split; [apply Hp; rewrite Co; discriminate|]. split; [exact Hr|].
  split; [rewrite (exec_workers_length http _ _ _ Ex); simpl; apply repeat_length|].
  split; [exact L|]. rewrite L.
  destruct (stop_before_read 3 sch) eqn:B.
  - pose proof (stop_before_read_clicks 3 sch B). split; intros; [lia | lia].
  - split; [discriminate | reflexivity].
Qed.


End RunFacts.

(** A stopped run that ends (both probes were already under way at the
    click), and a run with a click after the flag was read. *)
Lemma ended_run_checked_all_witness :
  let archive := fun _ : string => Lines ["http://example.com/a"; "http://example.com/b"] in
  let http := fun _ : string => Response 200 512 in
  let ui := mkInput "example.com" "10000" 2 "" in
  let w0 := EvWorker 0 in
  let w1 := EvWorker 1 in
  let early := [w0; w1; w0; w1; EvStop; w0; w1; w0; w1; w0; w1; w0; w1;
                EvCoordinator; EvCoordinator; EvCoordinator; EvCoordinator] in
  let late := [w0; w1; w0; w1; w0; w1; w0; w1; w0; w1; w0; w1;
               EvCoordinator; EvCoordinator; EvCoordinator; EvStop; EvCoordinator] in
  (exists o,
     fetch_and_check_urls archive http ui early = Some o
     /\ end_label o = "Status: Stopped" /\ end_checked o = 2)
  /\ (exists o,
     fetch_and_check_urls archive http ui late = Some o
     /\ end_label o = "Status: Complete" /\ end_checked o = 2 /\ stop_clicks late = 1).
Proof.
  intros archive http ui w0 w1 early late. split.
  - destruct (fetch_and_check_urls archive http ui early) as [o|] eqn:E;
      [|vm_compute in E; discriminate E].
    exists o. split; [reflexivity|].
    destruct (ended_run_checked_all archive http ui 10000%Z
                ["http://example.com/a"; "http://example.com/b"] early o
                ltac:(discriminate) eq_refl eq_refl ltac:(discriminate) E)
      as (H1 & _ & _ & _ & H5 & _).
    split; [exact H5 | exact H1].
  - destruct (fetch_and_check_urls archive http ui late) as [o|] eqn:E;
      [|vm_compute in E; discriminate E].
    exists o. split; [reflexivity|].
    destruct (ended_run_checked_all archive http ui 10000%Z
                ["http://example.com/a"; "http://example.com/b"] late o
                ltac:(discriminate) eq_refl eq_refl ltac:(discriminate) E)
      as (H1 & _ & _ & _ & H5 & _).
    split; [exact H5|]. split; [exact H1 | reflexivity].
Defined.


(** ** Strings: further properties *)

Lemma all_chars_append (P : ascii -> bool) (a b : string) :
  all_chars P (a +++ b) = all_chars P a && all_chars P b.
Proof. induction a as [|c a IH]; simpl; [reflexivity | now rewrite IH, andb_assoc]. Qed.

Lemma all_chars_impl (P Q : ascii -> bool) (s : string) :
  (forall c, P c = true -> Q c = true) -> all_chars P s = true -> all_chars Q s = true.
Proof.
  intros H. induction s as [|c s IH]; simpl; [reflexivity|].
  rewrite !andb_true_iff. intros [Hc Hs]. auto.
Qed.

Lemma digit_char_ok (d : nat) :
  d < 10 ->
  Str.is_digit (Str.digit_char d) = true /\ nat_of_ascii (Str.digit_char d) - 48 = d.
Proof.
  intros H. do 10 (destruct d as [|d]; [split; reflexivity|]). lia.
Qed.

Lemma digits_fuel_S (fuel n : nat) (acc : string) :
  Str.digits_fuel (S fuel) n acc
  = if Nat.ltb n 10 then String (Str.digit_char (n mod 10)) acc
    else Str.digits_fuel fuel (n / 10) (String (Str.digit_char (n mod 10)) acc).
Proof. reflexivity. Qed.

Lemma all_chars_cons (P : ascii -> bool) (c : ascii) (s : string) :
  all_chars P (String c s) = P c && all_chars P s.
Proof. reflexivity. Qed.

Lemma digits_value_cons (c : ascii) (s : string) (a : Z) :
  Str.digits_value (String c s) a
  = if Str.is_digit c
    then Str.digits_value s (10 * a + Z.of_nat (nat_of_ascii c - 48))%Z
    else None.
Proof. reflexivity. Qed.

Lemma mod_10_digit (n : nat) :
  Str.is_digit (Str.digit_char (n mod 10)) = true
  /\ nat_of_ascii (Str.digit_char (n mod 10)) - 48 = n mod 10.
Proof.
  assert (H : n mod 10 < 10) by (apply Nat.mod_upper_bound; discriminate).
  exact (digit_char_ok (n mod 10) H).
Qed.

Lemma digits_fuel_all_digits (fuel : nat) :
  forall n acc, all_chars Str.is_digit acc = true ->
                all_chars Str.is_digit (Str.digits_fuel fuel n acc) = true.
Proof.
  induction fuel as [|fuel IH]; intros n acc Hacc; [exact Hacc|].
  rewrite digits_fuel_S.
  assert (Hd : all_chars Str.is_digit (String (Str.digit_char (n mod 10)) acc) = true).
  { rewrite all_chars_cons, Hacc, andb_true_r. exact (proj1 (mod_10_digit n)). }
  destruct (Nat.ltb n 10); [exact Hd | now apply IH].
Qed.

Lemma of_nat_all_digits (n : nat) : all_chars Str.is_digit (Str.of_nat n) = true.
Proof. apply digits_fuel_all_digits. reflexivity. Qed.

Lemma digits_fuel_head (fuel : nat) :
  forall n d acc, Str.is_digit d = true ->
    exists c r, Str.digits_fuel fuel n (String d acc) = String c r /\ Str.is_digit c = true.
Proof.
  induction fuel as [|fuel IH]; intros n d acc Hd; [now exists d, acc|].
  rewrite digits_fuel_S.
  destruct (Nat.ltb n 10).
  - eexists. eexists. split; [reflexivity | exact (proj1 (mod_10_digit n))].
  - apply IH. exact (proj1 (mod_10_digit n)).
Qed.

Lemma of_nat_head (n : nat) :
  exists c r, Str.of_nat n = String c r /\ Str.is_digit c = true.
Proof.
  unfold Str.of_nat. rewrite digits_fuel_S.
  destruct (Nat.ltb n 10).
  - eexists. eexists. split; [reflexivity | exact (proj1 (mod_10_digit n))].
  - apply digits_fuel_head. exact (proj1 (mod_10_digit n)).
Qed.

Lemma digits_fuel_value (fuel : nat) :
  forall n acc, n < fuel ->
    exists k : nat, forall a : Z,
      Str.digits_value (Str.digits_fuel fuel n acc) a
      = Str.digits_value acc (a * 10 ^ Z.of_nat k + Z.of_nat n)%Z.
Proof.
  induction fuel as [|fuel IH]; intros n acc Hn; [lia|].
  rewrite digits_fuel_S. destruct (mod_10_digit n) as [Hd Hv].
  destruct (Nat.ltb n 10) eqn:E.
  - apply Nat.ltb_lt in E. exists 1. intros a.
    rewrite digits_value_cons, Hd, Hv, Nat.mod_small by exact E. f_equal.
    change (Z.of_nat 1) with 1%Z. lia.
  - apply Nat.ltb_ge in E.
    destruct (IH (n / 10) (String (Str.digit_char (n mod 10)) acc)) as [k Hk].
    { assert (n / 10 < n) by (apply Nat.div_lt; lia). lia. }
    exists (S k). intros a. rewrite Hk, digits_value_cons, Hd, Hv. f_equal.
    rewrite Nat2Z.inj_succ, Z.pow_succ_r by lia.
    pose proof (Nat.div_mod_eq n 10) as Hdm.
    assert (Hz : Z.of_nat n = (10 * Z.of_nat (n / 10) + Z.of_nat (n mod 10))%Z).
    { rewrite Hdm at 1. rewrite Nat2Z.inj_add, Nat2Z.inj_mul. reflexivity. }
    rewrite Hz. ring.
Qed.

Lemma unsigned_int_of_nat (n : nat) : Str.unsigned_int (Str.of_nat n) = Some (Z.of_nat n).
Proof.
  destruct (of_nat_head n) as (c & r & Hs & _). unfold Str.unsigned_int. rewrite Hs, <- Hs.
  unfold Str.of_nat. destruct (digits_fuel_value (S n) n "" ltac:(lia)) as [k Hk].
  rewrite Hk. cbn [Str.digits_value]. f_equal; lia.
Qed.

Lemma digit_not_space (c : ascii) : Str.is_digit c = true -> Str.is_space c = false.
Proof. destruct c as [[] [] [] [] [] [] [] []]; intros H; try discriminate H; reflexivity. Qed.

Lemma lstrip_no_space (s : string) :
  (forall c r, s = String c r -> Str.is_space c = false) -> Str.lstrip s = s.
Proof.
  destruct s as [|c r]; intros H; [reflexivity|]. simpl. now rewrite (H c r eq_refl).
Qed.

Lemma rstrip_no_space (s : string) :
  all_chars (fun c => negb (Str.is_space c)) s = true -> Str.rstrip s = s.
Proof.
  induction s as [|c s IH]; [reflexivity|]. simpl.
  rewrite andb_true_iff, negb_true_iff. intros [Hc Hs]. rewrite (IH Hs).
  destruct s; [now rewrite Hc | reflexivity].
Qed.

Lemma strip_no_space (s : string) :
  all_chars (fun c => negb (Str.is_space c)) s = true -> Str.strip s = s.
Proof.
  intros H. unfold Str.strip. rewrite lstrip_no_space; [now apply rstrip_no_space|].
  intros c r ->. simpl in H. apply andb_true_iff in H. now apply negb_true_iff.
Qed.

Lemma py_int_digit_head (c : ascii) (r : string) :
  Str.is_digit c = true ->
  Str.strip (String c r) = String c r ->
  Str.py_int (String c r) = Str.unsigned_int (String c r).
Proof.
  intros Hd Hs. unfold Str.py_int. rewrite Hs.
  destruct c as [[] [] [] [] [] [] [] []]; try discriminate Hd; reflexivity.
Qed.

(** X13: writing and reading a number.  [int(str(z))] is [z] for every
    integer: the decimal text that goes into the query for the limit
    reads back as the limit, so different limits give different
    queries. *)
Theorem py_int_of_Z :
  forall z : Z, Str.py_int (Str.of_Z z) = Some z.
Proof.
  intros z.
  assert (Hnat : forall n, Str.py_int (Str.of_nat n) = Some (Z.of_nat n)).
  { intros n. destruct (of_nat_head n) as (c & r & Hs & Hd).
    rewrite Hs. rewrite py_int_digit_head; [rewrite <- Hs; apply unsigned_int_of_nat | exact Hd |].
    rewrite <- Hs. apply strip_no_space.
    apply (all_chars_impl Str.is_digit); [|apply of_nat_all_digits].
    intros c0 H0. now rewrite digit_not_space. }
  destruct z as [|p|p]; unfold Str.of_Z.
  - apply (Hnat 0).
  - rewrite Hnat. now rewrite Z2Nat.id.
  - unfold Str.py_int. rewrite strip_no_space.
    + rewrite unsigned_int_of_nat. simpl. now rewrite positive_nat_Z.
    + simpl. apply (all_chars_impl Str.is_digit); [|apply of_nat_all_digits].
      intros c0 H0. now rewrite digit_not_space.
Qed.












Lemma percent_chars (c : ascii) :
  all_chars (fun x => Str.always_safe x || Ascii.eqb x "%"%char) (Str.percent c) = true.
Proof. destruct c as [[] [] [] [] [] [] [] []]; reflexivity. Qed.

Lemma safe_not_breaking (c : ascii) :
  Str.always_safe c || Ascii.eqb c "%"%char = true -> negb (query_breaking c) = true.
Proof. destruct c as [[] [] [] [] [] [] [] []]; intros H; try discriminate H; reflexivity. Qed.

Lemma quote_cons (c : ascii) (s : string) :
  Str.quote (String c s)
  = (if Str.always_safe c then String c "" else Str.percent c) +++ Str.quote s.
Proof. reflexivity. Qed.

(** X15: what [quote] lets through.  Every character of a quoted text
    is a letter, a digit, one of [_ . - /], or belongs to a [%XX] escape;
    so the quoted domain holds no [&], [=], [?], [#] or blank and cannot
    add or end a parameter of the query.  A text of letters, digits and
    [_ . - /] alone is left as it is. *)
Theorem quote_is_safe :
  forall s : string,
    all_chars (fun c => Str.always_safe c || Ascii.eqb c "%"%char) (Str.quote s) = true
    /\ all_chars (fun c => negb (query_breaking c)) (Str.quote s) = true
    /\ (all_chars Str.always_safe s = true -> Str.quote s = s).
Proof.
  intros s.
  assert (H : all_chars (fun c => Str.always_safe c || Ascii.eqb c "%"%char) (Str.quote s) = true).
  { induction s as [|c s IH]; [reflexivity|].
    rewrite quote_cons, all_chars_append, IH, andb_true_r.
    destruct (Str.always_safe c) eqn:E; [|apply percent_chars].
    rewrite all_chars_cons, E. reflexivity. }
  split; [exact H|]. split.
  - apply (all_chars_impl _ _ _ safe_not_breaking H).
  - clear H. induction s as [|c s IH]; [reflexivity|].
    rewrite all_chars_cons, andb_true_iff. intros [Hc Hs].
    rewrite quote_cons, Hc, (IH Hs). reflexivity.
Qed.

Lemma quote_is_safe_witness :
  Str.quote "example.com/a-b_c" = "example.com/a-b_c"
  /\ Str.quote "a.com&limit=1 #" = "a.com%26limit%3D1%20%23".
Proof.
  split; [|reflexivity].
  apply (proj2 (proj2 (quote_is_safe "example.com/a-b_c"))). reflexivity.
Defined.

(** ** The filter, the scheme and the report: further properties *)

Lemma lower_char_idem (c : ascii) : Str.lower_char (Str.lower_char c) = Str.lower_char c.
Proof. destruct c as [[] [] [] [] [] [] [] []]; reflexivity. Qed.

Lemma lower_idem (s : string) : Str.lower (Str.lower s) = Str.lower s.
Proof.
  induction s as [|c s IH]; [reflexivity|].
  cbn [Str.lower]. now rewrite lower_char_idem, IH.
Qed.

Lemma spec_lower_upper_char (c : ascii) :
  spec_lower_char (spec_upper_char c) = spec_lower_char c.
Proof. destruct c as [[] [] [] [] [] [] [] []]; reflexivity. Qed.

Lemma spec_lower_lower_char (c : ascii) :
  spec_lower_char (spec_lower_char c) = spec_lower_char c.
Proof. destruct c as [[] [] [] [] [] [] [] []]; reflexivity. Qed.

Lemma spec_lowercase_upper (s : string) :
  spec_lowercase (spec_uppercase s) = spec_lowercase s.
Proof.
  induction s as [|c s IH]; [reflexivity|].
  cbn [spec_uppercase spec_lowercase]. now rewrite spec_lower_upper_char, IH.
Qed.

Lemma spec_lowercase_idem (s : string) :
  spec_lowercase (spec_lowercase s) = spec_lowercase s.
Proof.
  induction s as [|c s IH]; [reflexivity|].
  cbn [spec_lowercase]. now rewrite spec_lower_lower_char, IH.
Qed.

Lemma is_excluded_same_letters (url1 url2 : string) :
  spec_lowercase url1 = spec_lowercase url2 -> is_excluded url1 = is_excluded url2.
Proof. intros H. unfold is_excluded. now rewrite !lower_spec, H. Qed.

Lemma filter_urls_map (f : string -> string) (l : list string) :
  (forall url, is_excluded (f url) = is_excluded url) ->
  filter_urls (map f l) = map f (filter_urls l).
Proof.
  intros Hf. unfold filter_urls. induction l as [|u l IH]; [reflexivity|].
  cbn [map filter]. rewrite Hf. destruct (negb (is_excluded u)); cbn [map]; now rewrite IH.
Qed.

(** X16: the filter works line by line and ignores case.  Filtering two
    lists one after the other and joining the results is filtering the
    joined list; filtering a filtered list changes nothing; the result is
    never longer than the input.  Two URLs that differ only in the case
    of their letters A-Z are both dropped or both kept; so a URL is
    dropped exactly when its spelling in capitals is, and exactly when
    its spelling in small letters is, and the filter commutes with
    rewriting every line in capitals or in small letters.  Capitals and
    small letters are [spec_uppercase] and [spec_lowercase], written
    apart from the code's [lower]. *)
Theorem filter_urls_composes :
  forall l1 l2 : list string,
    filter_urls (l1 ++ l2) = filter_urls l1 ++ filter_urls l2
    /\ filter_urls (filter_urls l1) = filter_urls l1
    /\ length (filter_urls l1) <= length l1
    /\ (forall url1 url2,
          spec_lowercase url1 = spec_lowercase url2 -> is_excluded url1 = is_excluded url2)
    /\ (forall url, is_excluded (spec_uppercase url) = is_excluded url)
    /\ (forall url, is_excluded (spec_lowercase url) = is_excluded url)
    /\ filter_urls (map spec_uppercase l1) = map spec_uppercase (filter_urls l1)
    /\ filter_urls (map spec_lowercase l1) = map spec_lowercase (filter_urls l1).
Proof.
  intros l1 l2.
  assert (Hup : forall url, is_excluded (spec_uppercase url) = is_excluded url)
    by (intros url; apply is_excluded_same_letters, spec_lowercase_upper).
  assert (Hlow : forall url, is_excluded (spec_lowercase url) = is_excluded url)
    by (intros url; apply is_excluded_same_letters, spec_lowercase_idem).
  split; [apply filter_app|].
  split; [|split; [|split; [exact is_excluded_same_letters|]]].
  - unfold filter_urls. induction l1 as [|u l IH]; [reflexivity|]. cbn [filter].
    destruct (negb (is_excluded u)) eqn:E; [|exact IH].
    cbn [filter]. now rewrite E, IH.
  - unfold filter_urls. induction l1 as [|u l IH]; [apply le_n|]. cbn [filter].
    destruct (negb (is_excluded u)); simpl; lia.
  - split; [exact Hup|]. split; [exact Hlow|].
    split; apply filter_urls_map; assumption.
Qed.

(** The same stylesheet spelled three ways, and a page, through the
    theorem. *)
Lemma filter_urls_composes_witness :
  is_excluded "HTTP://EXAMPLE.COM/SITE.CSS" = is_excluded "http://example.com/site.css"
  /\ is_excluded "http://example.com/site.css" = true
  /\ filter_urls ["http://Example.com/Site.Css"; "http://example.com/Page"]
     = ["http://example.com/Page"]
  /\ filter_urls (map spec_uppercase ["http://Example.com/Site.Css"; "http://example.com/Page"])
     = ["HTTP://EXAMPLE.COM/PAGE"].
Proof.
  split; [|split; [reflexivity|split; [reflexivity|]]].
  - exact (proj1 (proj2 (proj2 (proj2 (filter_urls_composes [] [])))) _ _ eq_refl).
  - rewrite (proj1 (proj2 (proj2 (proj2 (proj2 (proj2 (proj2
               (filter_urls_composes ["http://Example.com/Site.Css"; "http://example.com/Page"]
                  [])))))))).
    reflexivity.
Defined.

(** X17: normalising twice is normalising once, and a normalised URL
    always starts with [http://] or [https://]; it is at most seven
    characters longer than the URL it comes from. *)
Theorem normalize_idempotent :
  forall url : string,
    normalize (normalize url) = normalize url
    /\ (Str.startswith (normalize url) "http://" = true
        \/ Str.startswith (normalize url) "https://" = true)
    /\ String.length (normalize url) <= String.length url + 7.
Proof.
  intros url.
  assert (H : Str.startswith (normalize url) "http://" = true
              \/ Str.startswith (normalize url) "https://" = true).
  { unfold normalize.
    destruct (Str.startswith url "http://") eqn:E1; [now left|].
    destruct (Str.startswith url "https://") eqn:E2; [now right|].
    left. apply startswith_iff. now exists url. }
  split; [now apply normalize_http|]. split; [exact H|].
  unfold normalize.
  destruct (Str.startswith url "http://" || Str.startswith url "https://"); [lia|].
  rewrite append_length. simpl. lia.
Qed.

Lemma no_nl_count (s : string) :
  all_chars (fun c => negb (Ascii.eqb c "010"%char)) s = true -> Str.count_nl s = 0.
Proof.
  induction s as [|c s IH]; [reflexivity|].
  rewrite all_chars_cons, andb_true_iff, negb_true_iff. intros [Hc Hs].
  cbn [Str.count_nl]. now rewrite Hc, (IH Hs).
Qed.

Lemma digit_not_nl (c : ascii) : Str.is_digit c = true -> negb (Ascii.eqb c "010"%char) = true.
Proof. destruct c as [[] [] [] [] [] [] [] []]; intros H; try discriminate H; reflexivity. Qed.

Lemma of_Z_no_nl (z : Z) : Str.count_nl (Str.of_Z z) = 0.
Proof.
  assert (H : forall n, Str.count_nl (Str.of_nat n) = 0).
  { intros n. apply no_nl_count.
    apply (all_chars_impl _ _ _ digit_not_nl (of_nat_all_digits n)). }
  destruct z; unfold Str.of_Z; [apply H | apply H|].
  cbn [Str.count_nl]. now rewrite H.
Qed.

Lemma spaces_no_nl (n : nat) : Str.count_nl (Str.spaces n) = 0.
Proof. induction n as [|n IH]; [reflexivity | exact IH]. Qed.

Lemma ljust_count_nl (w : nat) (s : string) : Str.count_nl (Str.ljust w s) = Str.count_nl s.
Proof. unfold Str.ljust. rewrite count_nl_append, spaces_no_nl. lia. Qed.

Lemma format_row_count_nl (a b c : string) :
  Str.count_nl (format_row a b c) = Str.count_nl a + Str.count_nl b + Str.count_nl c + 1.
Proof.
  unfold format_row. rewrite !count_nl_append, !ljust_count_nl.
  change (Str.count_nl " ") with 0. change (Str.count_nl Str.nl) with 1. lia.
Qed.

Lemma render_item_count_nl (r : result) :
  Str.count_nl (snd r) = 0 -> Str.count_nl (render_item r) = 1.
Proof.
  destruct r as [[status size] text]. cbn [snd]. intros H. unfold render_item.
  destruct (status =? -1)%Z.
  - rewrite count_nl_append, H. reflexivity.
  - rewrite format_row_count_nl, H, of_Z_no_nl.
    destruct (negb (size =? -1)%Z); [now rewrite of_Z_no_nl | reflexivity].
Qed.

(** X18: the report has one line per result.  When no result text
    holds a line feed (URLs come from single lines of the archive index;
    the text of a failure may hold one), the report has two lines for
    the header and the separator and exactly one line per result. *)
Theorem report_line_count :
  forall rs : list result,
    Forall (fun r => Str.count_nl (snd r) = 0) rs ->
    Str.count_nl (build_report rs) = 2 + length rs.
Proof.
  intros rs H. unfold build_report. rewrite !count_nl_append.
  change (Str.count_nl headers) with 1. change (Str.count_nl separator) with 1.
  assert (Hs : Forall (fun r => Str.count_nl (snd r) = 0) (sorted_desc rs))
    by (eapply Permutation_Forall; [symmetry; apply sorted_desc_perm | exact H]).
  rewrite <- (Permutation_length (sorted_desc_perm rs)).
  induction Hs as [|r l Hr _ IH]; [reflexivity|].
  cbn [map Str.concat_all length]. rewrite count_nl_append, (render_item_count_nl r Hr).
  simpl in IH. lia.
Qed.

Lemma report_line_count_witness :
  Str.count_nl
    (build_report [(200, 100, "http://a/1"); (-1, -1, "[!] Error on http://a/4: refused")]%Z)
  = 4.
Proof.
  apply (report_line_count
           [(200, 100, "http://a/1"); (-1, -1, "[!] Error on http://a/4: refused")]%Z).
  repeat constructor.
Defined.

(** ** How a run ends *)

(** A pool with at least one worker, when Stop is not clicked: every
    schedule is bounded, a state in which no thread can move is the end
    of the run, and every schedule can be continued to the end. *)
Lemma no_stop_pool_ends (http : string -> response) (targets : list string)
      (thread_count : nat) (out : string) (sch : list event) (s : state) :
  1 <= thread_count ->
  no_stop sch = true ->
  exec http sch (pool_start out targets thread_count) = Some s ->
  length sch <= 6 * length targets + 2 * thread_count + 5
  /\ ((forall e, e <> EvStop -> step http e s = None) -> coordinator s = CDone)
  /\ exists sch' s',
       no_stop sch' = true
       /\ exec http (sch ++ sch') (pool_start out targets thread_count) = Some s'
       /\ coordinator s' = CDone.
Proof.
  intros HT Hns Hex.
  pose proof (pool_inv_exec http targets out thread_count sch s Hex) as Inv.
  assert (Al : alive s).
  { apply (exec_invariant http _ (fun x => pool_inv http targets x /\ alive x)
             (fun e s0 s1 He '(conj I0 A0) E =>
                conj (pool_inv_step http targets e s0 s1 I0 E)
                     (alive_step http targets e s0 s1 He I0 A0 E))
             sch _ s Hns (conj (pool_inv_start http targets out thread_count)
                               (alive_start out targets thread_count)) Hex). }
  assert (Hws : workers s <> []).
  { intros Hnil. pose proof (exec_workers_length http sch _ s Hex) as Hl.
    rewrite Hnil in Hl. simpl in Hl. rewrite repeat_length in Hl. lia. }
  split; [|split].
  - pose proof (exec_uses_up http sch _ _ Hex) as Hu.
    unfold steps_left at 2 in Hu. simpl in Hu. rewrite total_rank_start in Hu. lia.
  - intros Hmax. destruct (coordinator s) eqn:Co; try reflexivity;
      (destruct (can_move http targets s Inv Al Hws) as (e & s1 & He & E);
       [rewrite Co; discriminate|];
       rewrite Hmax in E; [discriminate E | intros ->; discriminate He]).
  - destruct (complete_from http targets (steps_left s) s Inv Al Hws (le_n _))
      as (sch' & s' & H1 & H2 & H3 & _).
    exists sch', s'. split; [exact H1|]. split; [|exact H3].
    rewrite exec_app, Hex. exact H2.
Qed.

(** C6, amended: every run in which Stop is not clicked ends, and every
    run that ends, stopped or not, ends with one of the four labels
    Complete, Stopped, Error and Fetch Error.  A run that returns before
    the pool ends under every schedule.  A run that starts the pool, with
    at least one worker (the selector offers 1 to 10) and without a click
    on Stop, takes a bounded number of actions, has ended as soon as no
    thread can move, and can be continued to its end from wherever it
    stands.  When the archive
    index returns no line the run ends with [Status: Error]; when the
    query fails it ends with [Status: Fetch Error] and the failure
    message in the output area; in both cases with one query sent, no
    worker started and nothing probed. *)
Theorem run_terminal_status :
  forall (archive : string -> archive_reply) (http : string -> response) (ui : ui_input),
    (forall (sch : list event) (o : outcome),
        fetch_and_check_urls archive http ui sch = Some o ->
        In (end_label o) terminal_labels)
    /\ match fetch_prepare archive ui with
       | Returned o => forall sch, fetch_and_check_urls archive http ui sch = Some o
       | Started _ s0 =>
           forall (sch : list event) (s : state),
             1 <= threadsDropdown ui ->
             no_stop sch = true ->
             exec http sch s0 = Some s ->
             length sch <= 6 * total_urls s0 + 2 * threadsDropdown ui + 5
             /\ ((forall e, e <> EvStop -> step http e s = None) -> coordinator s = CDone)
             /\ exists sch' o,
                  no_stop sch' = true
                  /\ fetch_and_check_urls archive http ui (sch ++ sch') = Some o
       end
    /\ (forall (limit : Z) (sch : list event),
        Str.strip (domainField ui) <> "" ->
        Str.py_int (Str.strip (limitField ui)) = Some limit ->
        archive (target_url (Str.strip (domainField ui)) limit) = Lines [] ->
        exists o,
          fetch_and_check_urls archive http ui sch = Some o
          /\ end_label o = "Status: Error"
          /\ end_archive_calls o = [target_url (Str.strip (domainField ui)) limit]
          /\ end_workers o = 0 /\ end_probed o = [])
    /\ (forall (limit : Z) (cause : string) (sch : list event),
        Str.strip (domainField ui) <> "" ->
        Str.py_int (Str.strip (limitField ui)) = Some limit ->
        archive (target_url (Str.strip (domainField ui)) limit) = FetchFailure cause ->
        fetch_and_check_urls archive http ui sch
        = Some (mkOutcome "Status: Fetch Error" (fetch_error_message cause)
                  [target_url (Str.strip (domainField ui)) limit] 0 [] [] 0)).
Proof.
  intros archive http ui. split; [|split; [|split]].
  - intros sch o. unfold fetch_and_check_urls, terminal_labels.
    destruct (fetch_prepare_cases archive ui)
      as [[_ H] | [(_ & _ & H) | (limit & _ & _ & Hc)]].
    + rewrite H. intros E; injection E as <-. simpl. auto.
    + rewrite H. intros E; injection E as <-. simpl. auto.
    + destruct Hc as [(cause & _ & H) | [(out & _ & H) | (lines & out & _ & _ & H)]];
        rewrite H; try (intros E; injection E as <-; simpl; now auto 6).
      destruct (exec http sch _) as [s|] eqn:Ex; [|discriminate].
      destruct (coordinator s) eqn:Co; try discriminate.
      intros E; injection E as <-. simpl.
      destruct (pool_end_label http _ _ _ _ _ Ex Co) as [[-> _] | ->]; auto.
  - destruct (fetch_prepare_cases archive ui)
      as [[_ H] | [(_ & _ & H) | (limit & _ & _ & Hc)]].
    + rewrite H. intros sch. unfold fetch_and_check_urls. now rewrite H.
    + rewrite H. intros sch. unfold fetch_and_check_urls. now rewrite H.
    + destruct Hc as [(cause & _ & H) | [(out & _ & H) | (lines & out & _ & _ & H)]];
        rewrite H; try (intros sch; unfold fetch_and_check_urls; now rewrite H).
      intros sch s HT Hns Hex.
      destruct (no_stop_pool_ends http _ _ _ sch s HT Hns Hex)
        as (Hb & Hmax & sch' & s' & H1 & H2 & H3).
      cbn [total_urls pool_start]. split; [exact Hb|]. split; [exact Hmax|].
      exists sch'. eexists. split; [exact H1|].
      unfold fetch_and_check_urls. rewrite H, H2, H3. reflexivity.
  - intros limit sch Hd Hl Ha. unfold fetch_and_check_urls.
    destruct (fetch_prepare_cases archive ui)
      as [[E _] | [(_ & Hn & _) | (limit' & _ & Hl' & Hc)]]; [contradiction | congruence |].
    assert (limit' = limit) as -> by congruence.
    destruct Hc as [(cause & Hx & H) | [(out & _ & H) | (lines & out & Hx & Hne & H)]].
    + congruence.
    + rewrite H. eexists. split; [reflexivity|]. simpl. auto.
    + rewrite Ha in Hx. injection Hx as <-. contradiction.
  - intros limit cause sch Hd Hl Ha. unfold fetch_and_check_urls.
    destruct (fetch_prepare_cases archive ui)
      as [[E _] | [(_ & Hn & _) | (limit' & _ & Hl' & Hc)]]; [contradiction | congruence |].
    assert (limit' = limit) as -> by congruence.
    destruct Hc as [(cause' & Hx & H) | [(out & Hx & H) | (lines & out & Hx & Hne & H)]].
    + rewrite Ha in Hx. injection Hx as <-. now rewrite H.
    + congruence.
    + congruence.
Qed.

(** An archive that answers with nothing, one that cannot be reached, and
    one that answers with two URLs: a run half way through is continued
    to its end. *)
Lemma run_terminal_status_witness :
  let http := fun _ : string => Response 200 512 in
  let ui := mkInput "example.com" "10000" 5 "" in
  let archive := fun _ : string => Lines ["http://example.com/a"; "http://example.com/b"] in
  let sch := [EvWorker 0; EvWorker 4; EvWorker 0; EvWorker 0] in
  (exists o,
     fetch_and_check_urls (fun _ => Lines []) http ui [EvWorker 0] = Some o
     /\ end_label o = "Status: Error"
     /\ end_archive_calls o = [target_url "example.com" 10000]
     /\ end_workers o = 0 /\ end_probed o = [])
  /\ fetch_and_check_urls (fun _ => FetchFailure "connect timed out") http ui []
     = Some (mkOutcome "Status: Fetch Error" (fetch_error_message "connect timed out")
               [target_url "example.com" 10000] 0 [] [] 0)
  /\ (exists sch' o,
        no_stop sch' = true
        /\ fetch_and_check_urls archive http ui (sch ++ sch') = Some o
        /\ In (end_label o) terminal_labels).
Proof.
  intros http ui archive sch. split; [|split].
  - apply (proj1 (proj2 (proj2 (run_terminal_status (fun _ => Lines []) http ui)))
             10000%Z);
      [discriminate | reflexivity | reflexivity].
  - apply (proj2 (proj2 (proj2 (run_terminal_status
                                  (fun _ => FetchFailure "connect timed out") http ui)))
             10000%Z);
      [discriminate | reflexivity | reflexivity].
  - destruct (run_terminal_status archive http ui) as (Hlab & Hend & _).
    destruct (fetch_prepare archive ui) as [o0|query s0] eqn:P;
      [vm_compute in P; discriminate P|].
    destruct (exec http sch s0) as [s|] eqn:E;
      [|vm_compute in P; injection P as _ <-; vm_compute in E; discriminate E].
    destruct (Hend sch s ltac:(simpl; lia) eq_refl E) as (_ & _ & sch' & o & H1 & H2).
    exists sch', o. split; [exact H1|]. split; [exact H2|]. exact (Hlab _ o H2).
Defined.
